(** * Content-Security-Policy middleware: normalizer, renderer, request handler

    A shallow embedding of [src/index.ts].  JavaScript strings are modelled
    as Rocq strings (sequences of 8-bit characters); the only characters
    the program inspects are ASCII ([A-Z], [a-z], [0-9], [-], [;], [,]).

    A directives object is modelled as the sequence of its own enumerable
    string-keyed properties in the order in which [for ... in] visits them
    (the loop skips what [has] rejects, the inherited properties).  For
    keys that are not canonical array indices this is the order in which
    the properties were created; [forInOrder] below gives the visiting
    order of a mapping written with array-index keys.

    A value list ([Iterable]) is modelled as a list, as for an array: it
    can be iterated again and yields the same elements.  A dynamic value
    producer is a function of the request and the response that returns a
    string and has no effect of its own. *)

From Stdlib Require Import Ascii String.
From stdpp Require Import gmap strings list fin_maps.

Set Warnings "-notation-for-abbreviation,-clear-no-such-hyp".

(** ** Characters and strings *)

(** [/[A-Z]/] *)
Definition isUpper (c : ascii) : bool :=
  (("A" <=? c) && (c <=? "Z"))%char.

(** [/[a-z]/] *)
Definition isLower (c : ascii) : bool :=
  (("a" <=? c) && (c <=? "z"))%char.

(** [/[0-9]/] *)
Definition isDigit (c : ascii) : bool :=
  (("0" <=? c) && (c <=? "9"))%char.

(** One character of the class [[a-zA-Z0-9-]]. *)
Definition isNameChar (c : ascii) : bool :=
  isLower c || isUpper c || isDigit c || (c =? "-")%char.

(** [capitalLetter.toLowerCase()] on a letter matched by [/[A-Z]/]. *)
Definition toLowerCase (c : ascii) : ascii :=
  ascii_of_N (N_of_ascii c + 32).

(** [str.replace(/[A-Z]/g, (c) => "-" + c.toLowerCase())] *)
Fixpoint dashify (str : string) : string :=
  match str with
  | EmptyString => EmptyString
  | String c rest =>
      if isUpper c
      then String "-" (String (toLowerCase c) (dashify rest))
      else String c (dashify rest)
  end.

(** [regex.test(s)] for a regular expression that is a single character
    class: some character of [s] is in the class. *)
Fixpoint testChar (cls : ascii -> bool) (s : string) : bool :=
  match s with
  | EmptyString => false
  | String c rest => cls c || testChar cls rest
  end.

Definition isSeparator (c : ascii) : bool :=
  ((c =? ";") || (c =? ","))%char.

(** [/;|,/.test(directiveValue)] *)
Definition isDirectiveValueInvalid (directiveValue : string) : bool :=
  testChar isSeparator directiveValue.

(** [rawDirectiveName.length === 0 || /[^a-zA-Z0-9-]/.test(rawDirectiveName)] *)
Definition isDirectiveNameInvalid (rawDirectiveName : string) : bool :=
  (String.length rawDirectiveName =? 0)
  || testChar (fun c => negb (isNameChar c)) rawDirectiveName.

(** Number of occurrences of a character in a string. *)
Fixpoint countChar (a : ascii) (s : string) : nat :=
  match s with
  | EmptyString => 0
  | String c rest => (if (c =? a)%char then 1 else 0) + countChar a rest
  end.

(** [parts.join(sep)] *)
Definition join (sep : string) (parts : list string) : string :=
  String.concat sep parts.

(** The strings of a list, each preceded by one space: the value the
    renderer accumulates, in closed form. *)
Fixpoint spaced (strs : list string) : string :=
  match strs with
  | [] => ""
  | s :: rest => " " +:+ s +:+ spaced rest
  end.

(** [n] spaces. *)
Fixpoint spaces (n : nat) : string :=
  match n with
  | 0 => ""
  | S n => String " " (spaces n)
  end.

(** ** Errors *)

(** The errors the program throws or returns, one constructor per message. *)
Inductive Error : Type :=
  (* received an invalid directive name ... *)
  | InvalidDirectiveName (rawDirectiveName : string)
  (* received a duplicate directive ... *)
  | DuplicateDirective (directiveName : string)
  (* received an invalid directive value for ... *)
  | InvalidDirectiveValue (directiveName : string)
  (* tried to disable ... as if it were default-src; simply omit the key *)
  | DisableNotDefaultSrc (directiveName : string)
  (* has no directives. Either set some or disable the header *)
  | NoDirectives
  (* needs a default-src but none was provided *)
  | NeedsDefaultSrc.

(** A computation that returns a value or throws. *)
Inductive completion (A : Type) : Type :=
  | Ok (a : A)
  | Throw (e : Error).
Arguments Ok {A} a.
Arguments Throw {A} e.

(** ** Data model, normalizer and renderer *)

Section Csp.

(** The request and response objects of the host ([http]); the middleware
    only hands them to the dynamic value producers. *)
Context {IncomingMessage ServerResponse : Type}.

(** [string | ((req, res) => string)] *)
Inductive ContentSecurityPolicyDirectiveValue : Type :=
  | Literal (s : string)
  | Dynamic (f : IncomingMessage -> ServerResponse -> string).

(** What a property of the [directives] object may hold, following the
    branches the normalizer takes on it. *)
Inductive RawDirectiveValue : Type :=
  (* typeof v === "string", the empty string included *)
  | RawString (s : string)
  (* any other falsy value: undefined, null, false, 0, NaN *)
  | RawFalsy
  (* the exported Symbol *)
  | dangerouslyDisableDefaultSrc
  (* anything else: an iterable of strings and functions *)
  | RawIterable (l : list ContentSecurityPolicyDirectiveValue).

Definition RawDirectives : Type := list (string * RawDirectiveValue).

Record ContentSecurityPolicyOptions : Type := {
  directives : option RawDirectives;
  reportOnly : option bool
}.

Record NormalizedDirective : Type := {
  directiveName : string;
  directiveValue : list ContentSecurityPolicyDirectiveValue
}.

Definition NormalizedDirectives : Type := list NormalizedDirective.

Definition DEFAULT_DIRECTIVES : RawDirectives :=
  [ ("default-src", RawIterable [Literal "'self'"]);
    ("base-uri", RawIterable [Literal "'self'"]);
    ("block-all-mixed-content", RawIterable []);
    ("font-src", RawIterable [Literal "'self'"; Literal "https:"; Literal "data:"]);
    ("frame-ancestors", RawIterable [Literal "'self'"]);
    ("img-src", RawIterable [Literal "'self'"; Literal "data:"]);
    ("object-src", RawIterable [Literal "'none'"]);
    ("script-src", RawIterable [Literal "'self'"]);
    ("script-src-attr", RawIterable [Literal "'none'"]);
    ("style-src", RawIterable [Literal "'self'"; Literal "https:"; Literal "'unsafe-inline'"]);
    ("upgrade-insecure-requests", RawIterable []) ].

(** The property sequence of the object [{ ...DEFAULT_DIRECTIVES }], the
    table being as written in the source.  The object identities involved,
    and what becomes of the table when a caller mutates a value list, are
    modelled in [Module Store] below. *)
Definition getDefaultDirectives : RawDirectives := DEFAULT_DIRECTIVES.

(** [typeof element === "string" && isDirectiveValueInvalid(element)] *)
Definition isElementInvalid (element : ContentSecurityPolicyDirectiveValue) : bool :=
  match element with
  | Literal s => isDirectiveValueInvalid s
  | Dynamic _ => false
  end.

(** The [for (const rawDirectiveName in rawDirectives)] loop, with the two
    variables it updates, [result] and [directiveNamesSeen]. *)
Fixpoint normalizeLoop (rawDirectives : RawDirectives)
    (result : NormalizedDirectives) (directiveNamesSeen : gset string)
    : completion (NormalizedDirectives * gset string) :=
  match rawDirectives with
  | [] => Ok (result, directiveNamesSeen)
  | (rawDirectiveName, rawDirectiveValue) :: rest =>
      if isDirectiveNameInvalid rawDirectiveName
      then Throw (InvalidDirectiveName rawDirectiveName)
      else
        let directiveName := dashify rawDirectiveName in
        if decide (directiveName ∈ directiveNamesSeen)
        then Throw (DuplicateDirective directiveName)
        else
          let directiveNamesSeen := {[directiveName]} ∪ directiveNamesSeen in
          let push directiveValue :=
            if existsb isElementInvalid directiveValue
            then Throw (InvalidDirectiveValue directiveName)
            else normalizeLoop rest
                   (result ++ [ {| directiveName := directiveName;
                                   directiveValue := directiveValue |} ])
                   directiveNamesSeen in
          match rawDirectiveValue with
          | RawString s => push [Literal s]
          | RawFalsy => Throw (InvalidDirectiveValue directiveName)
          | dangerouslyDisableDefaultSrc =>
              if decide (directiveName = "default-src")
              then normalizeLoop rest result directiveNamesSeen
              else Throw (DisableNotDefaultSrc directiveName)
          | RawIterable l => push l
          end
  end.

Definition normalizeDirectives (options : ContentSecurityPolicyOptions)
    : completion NormalizedDirectives :=
  let rawDirectives := default getDefaultDirectives (directives options) in
  match normalizeLoop rawDirectives [] ∅ with
  | Throw e => Throw e
  | Ok (result, directiveNamesSeen) =>
      if (length result =? 0)
      then Throw NoDirectives
      else if decide ("default-src" ∈ directiveNamesSeen)
      then Ok result
      else Throw NeedsDefaultSrc
  end.

(** [element instanceof Function ? element(req, res) : element] *)
Definition resolveElement (req : IncomingMessage) (res : ServerResponse)
    (element : ContentSecurityPolicyDirectiveValue) : string :=
  match element with
  | Literal s => s
  | Dynamic f => f req res
  end.

(** The inner loop of the renderer:
    [for (const element of rawDirectiveValue) directiveValue += " " + ...]. *)
Fixpoint accumulate (req : IncomingMessage) (res : ServerResponse)
    (rawDirectiveValue : list ContentSecurityPolicyDirectiveValue)
    (directiveValue : string) : string :=
  match rawDirectiveValue with
  | [] => directiveValue
  | element :: rest =>
      accumulate req res rest
        (directiveValue +:+ " " +:+ resolveElement req res element)
  end.

(** [!directiveValue] on a string. *)
Definition isEmptyString (s : string) : bool :=
  match s with
  | EmptyString => true
  | String _ _ => false
  end.

(** The outer loop of the renderer over the normalized directives, with the
    array [result] it pushes to; it returns an [Error] as a value. *)
Fixpoint renderLoop (req : IncomingMessage) (res : ServerResponse)
    (normalizedDirectives : NormalizedDirectives) (result : list string)
    : string + Error :=
  match normalizedDirectives with
  | [] => inl (join ";" result)
  | d :: rest =>
      let directiveValue := accumulate req res (directiveValue d) "" in
      if isEmptyString directiveValue
      then renderLoop req res rest (result ++ [directiveName d])
      else if isDirectiveValueInvalid directiveValue
      then inr (InvalidDirectiveValue (directiveName d))
      else renderLoop req res rest (result ++ [directiveName d +:+ directiveValue])
  end.

Definition getHeaderValue (req : IncomingMessage) (res : ServerResponse)
    (normalizedDirectives : NormalizedDirectives) : string + Error :=
  renderLoop req res normalizedDirectives [].

(** What the middleware does to its collaborators, in order: calls of
    [res.setHeader(name, value)] and of the continuation [next(err?)]. *)
Inductive Effect : Type :=
  | SetHeader (name value : string)
  | Next (err : option Error).

Definition contentSecurityPolicyMiddleware (headerName : string)
    (normalizedDirectives : NormalizedDirectives)
    (req : IncomingMessage) (res : ServerResponse) : list Effect :=
  match getHeaderValue req res normalizedDirectives with
  | inr error => [Next (Some error)]
  | inl value => [SetHeader headerName value; Next None]
  end.

(** [options.reportOnly ? ... : ...] *)
Definition selectHeaderName (options : ContentSecurityPolicyOptions) : string :=
  match reportOnly options with
  | Some true => "Content-Security-Policy-Report-Only"
  | _ => "Content-Security-Policy"
  end.

(** The exported factory.  Its warnings about deprecated option keys go to
    the console and do not influence the result; they are left out. *)
Definition contentSecurityPolicy (options : ContentSecurityPolicyOptions)
    : completion (IncomingMessage -> ServerResponse -> list Effect) :=
  match normalizeDirectives options with
  | Throw e => Throw e
  | Ok normalizedDirectives =>
      Ok (contentSecurityPolicyMiddleware (selectHeaderName options)
            normalizedDirectives)
  end.

(** Normalizing the options at setup, then rendering for one request. *)
Definition renderOptions (options : ContentSecurityPolicyOptions)
    (req : IncomingMessage) (res : ServerResponse)
    : completion (string + Error) :=
  match normalizeDirectives options with
  | Ok normalizedDirectives => Ok (getHeaderValue req res normalizedDirectives)
  | Throw e => Throw e
  end.

(** The names and the headers set, read off a run of the middleware. *)
Definition headersSet (effects : list Effect) : list (string * string) :=
  omap (fun e => match e with
                 | SetHeader n v => Some (n, v)
                 | Next _ => None
                 end) effects.

Definition nextCalls (effects : list Effect) : list (option Error) :=
  omap (fun e => match e with
                 | SetHeader _ _ => None
                 | Next err => Some err
                 end) effects.

(** The rendered form of one directive, as a function of its entry. *)
Definition renderDirective (req : IncomingMessage) (res : ServerResponse)
    (d : NormalizedDirective) : string :=
  directiveName d +:+ accumulate req res (directiveValue d) "".

(** The accumulated value of a directive passes the separator check. *)
Definition accumulatedValid (req : IncomingMessage) (res : ServerResponse)
    (d : NormalizedDirective) : Prop :=
  isDirectiveValueInvalid (accumulate req res (directiveValue d) "") = false.

(** The entry a property contributes to the result when the loop accepts
    it: none for the disable sentinel. *)
Definition entryOf (p : string * RawDirectiveValue)
    : option NormalizedDirective :=
  match p.2 with
  | RawString s =>
      Some {| directiveName := dashify p.1; directiveValue := [Literal s] |}
  | RawIterable l =>
      Some {| directiveName := dashify p.1; directiveValue := l |}
  | RawFalsy | dangerouslyDisableDefaultSrc => None
  end.

(** The conditions under which the loop body accepts a property. *)
Definition valueAccepted (p : string * RawDirectiveValue) : Prop :=
  match p.2 with
  | RawString s => isDirectiveValueInvalid s = false
  | RawFalsy => False
  | dangerouslyDisableDefaultSrc => dashify p.1 = "default-src"
  | RawIterable l => existsb isElementInvalid l = false
  end.

(** Options with only [directives] given. *)
Definition withDirectives (rawDirectives : RawDirectives)
    : ContentSecurityPolicyOptions :=
  {| directives := Some rawDirectives; reportOnly := None |}.

(** Options with nothing given, [{}]. *)
Definition noOptions : ContentSecurityPolicyOptions :=
  {| directives := None; reportOnly := None |}.

End Csp.

(** ** Object identities: the shared default table and its copies

    [DEFAULT_DIRECTIVES] is one object allocated when the module is loaded;
    its value lists are arrays, held by reference.  The store maps array
    and object references to their current contents. *)

Module Store.
Section Store.

Context {IncomingMessage ServerResponse : Type}.

Local Notation Element :=
  (@ContentSecurityPolicyDirectiveValue IncomingMessage ServerResponse).
Local Notation Raw := (@RawDirectiveValue IncomingMessage ServerResponse).

Definition loc : Type := nat.

(** A property value: primitives by value, arrays by reference. *)
Inductive Value : Type :=
  | VString (s : string)
  | VFalsy
  | VSymbol
  | VArray (a : loc).

Record store : Type := {
  arrays : gmap loc (list Element);
  objects : gmap loc (list (string * Value))
}.

Definition emptyStore : store := {| arrays := ∅; objects := ∅ |}.

(** An array literal [[e1, ..., en]] evaluates to a new array. *)
Definition allocArray (l : list Element) (h : store) : loc * store :=
  let a := fresh (dom (arrays h)) in
  (a, {| arrays := <[a:=l]> (arrays h); objects := objects h |}).

(** A new object with the given own properties. *)
Definition allocObject (props : list (string * Value)) (h : store)
    : loc * store :=
  let o := fresh (dom (objects h)) in
  (o, {| arrays := arrays h; objects := <[o:=props]> (objects h) |}).

Definition evalValue (rv : Raw) (h : store) : Value * store :=
  match rv with
  | RawString s => (VString s, h)
  | RawFalsy => (VFalsy, h)
  | dangerouslyDisableDefaultSrc => (VSymbol, h)
  | RawIterable l => let '(a, h1) := allocArray l h in (VArray a, h1)
  end.

Fixpoint evalProperties (props : list (string * Raw)) (h : store)
    : list (string * Value) * store :=
  match props with
  | [] => ([], h)
  | (k, rv) :: rest =>
      let '(v, h1) := evalValue rv h in
      let '(vs, h2) := evalProperties rest h1 in
      ((k, v) :: vs, h2)
  end.

(** An object literal [{ k1: v1, ..., kn: vn }]. *)
Definition evalObjectLiteral (props : list (string * Raw)) (h : store)
    : loc * store :=
  let '(ps, h1) := evalProperties props h in allocObject ps h1.

(** The module-level constant: its reference, and the store once the
    module is loaded. *)
Definition DEFAULT_DIRECTIVES_ref : loc :=
  (evalObjectLiteral DEFAULT_DIRECTIVES emptyStore).1.

Definition moduleStore : store :=
  (evalObjectLiteral DEFAULT_DIRECTIVES emptyStore).2.

(** [{ ...o }]: a new object whose own properties are those of [o], each
    holding the same value (for an array, the same reference). *)
Definition spread (o : loc) (h : store) : loc * store :=
  allocObject (default [] (objects h !! o)) h.

(** [const getDefaultDirectives = () => ({ ...DEFAULT_DIRECTIVES })] *)
Definition getDefaultDirectives (h : store) : loc * store :=
  spread DEFAULT_DIRECTIVES_ref h.

(** [o[k] = v]: an existing property keeps its place, a new one goes last. *)
Fixpoint assign (k : string) (v : Value) (props : list (string * Value))
    : list (string * Value) :=
  match props with
  | [] => [(k, v)]
  | (k', v') :: rest =>
      if decide (k' = k) then (k, v) :: rest else (k', v') :: assign k v rest
  end.

(** [o[k]] *)
Fixpoint lookupProperty (k : string) (props : list (string * Value))
    : option Value :=
  match props with
  | [] => None
  | (k', v) :: rest => if decide (k' = k) then Some v else lookupProperty k rest
  end.

(** What a caller holding the reference [c] can do through it. *)
Inductive Mutation : Type :=
  (* c[k] = v *)
  | SetProperty (k : string) (v : Value)
  (* delete c[k] *)
  | DeleteProperty (k : string)
  (* c[k].push(x), c[k].pop(), c[k][i] = x, c[k].length = n, ... *)
  | MutateList (k : string) (f : list Element -> list Element).

Definition isMappingMutation (m : Mutation) : bool :=
  match m with
  | SetProperty _ _ | DeleteProperty _ => true
  | MutateList _ _ => false
  end.

Definition applyMutation (c : loc) (m : Mutation) (h : store) : store :=
  match m with
  | SetProperty k v =>
      {| arrays := arrays h;
         objects := alter (assign k v) c (objects h) |}
  | DeleteProperty k =>
      {| arrays := arrays h;
         objects := alter (filter (fun p => p.1 ≠ k)) c (objects h) |}
  | MutateList k f =>
      match objects h !! c ≫= lookupProperty k with
      | Some (VArray a) =>
          {| arrays := alter f a (arrays h); objects := objects h |}
      | _ => h
      end
  end.

(** Reading a value and an object out of the store: what the normalizer
    sees when it is handed the reference. *)
Definition readValue (arrs : gmap loc (list Element)) (v : Value)
    : option Raw :=
  match v with
  | VString s => Some (RawString s)
  | VFalsy => Some RawFalsy
  | VSymbol => Some dangerouslyDisableDefaultSrc
  | VArray a => RawIterable <$> arrs !! a
  end.

Definition readObject (h : store) (o : loc) : option (list (string * Raw)) :=
  props ← objects h !! o;
  mapM (fun p => rv ← readValue (arrays h) p.2; Some (p.1, rv)) props.

(** What the normalizer is handed when no directives are given: the
    contents of a new copy of the table. *)
Definition readDefaults (h : store) : option (list (string * Raw)) :=
  let '(c, h') := getDefaultDirectives h in readObject h' c.

(** Independence of the copies with respect to a class of mutations, for a
    store [h]: after two calls, no such mutation done through the first
    copy shows in the shared table or in the second copy. *)
Definition copiesIndependentFor (allowed : Mutation -> bool) (h : store)
    : Prop :=
  forall m : Mutation,
    allowed m = true ->
    let '(c1, h1) := getDefaultDirectives h in
    let '(c2, h2) := getDefaultDirectives h1 in
    let h3 := applyMutation c1 m h2 in
    readObject h3 DEFAULT_DIRECTIVES_ref = readObject h2 DEFAULT_DIRECTIVES_ref
    /\ readObject h3 c2 = readObject h2 c2.

(** Full independence: for every mutation, those of the value lists
    included. *)
Definition copiesIndependent (h : store) : Prop :=
  copiesIndependentFor (fun _ => true) h.

End Store.
End Store.

(** ** Example configurations

    Following the README's recipe for nonces, the examples take the
    response to carry the nonce an earlier middleware stashed on it
    ([res.locals.nonce]), and the request to carry nothing. *)

Module Examples.

Definition Req : Type := unit.
Definition Res : Type := string.

Definition Element : Type := @ContentSecurityPolicyDirectiveValue Req Res.
Definition Options : Type := @ContentSecurityPolicyOptions Req Res.

Definition self : Element := Literal "'self'".
Definition none : Element := Literal "'none'".

(** [(req, res) => `'nonce-${res.locals.nonce}'`] *)
Definition nonce : Element :=
  Dynamic (fun _ res => "'nonce-" +:+ res +:+ "'").

(** [{ defaultSrc: ["'self'"], scriptSrc: ["'self'", nonce] }] *)
Definition nonceOptions : Options :=
  withDirectives
    [ ("defaultSrc", RawIterable [self]);
      ("scriptSrc", RawIterable [self; nonce]) ].

Definition nonceNormalized : list (@NormalizedDirective Req Res) :=
  [ {| directiveName := "default-src"; directiveValue := [self] |};
    {| directiveName := "script-src"; directiveValue := [self; nonce] |} ].

(** [{ defaultSrc: dangerouslyDisableDefaultSrc, objectSrc: ["'none'"] }] *)
Definition disabledOptions : Options :=
  withDirectives
    [ ("defaultSrc", dangerouslyDisableDefaultSrc);
      ("objectSrc", RawIterable [none]) ].

(** [{ defaultSrc: ["'self'"], blockAllMixedContent: [] }] *)
Definition valenceOptions : Options :=
  withDirectives
    [ ("defaultSrc", RawIterable [self]);
      ("blockAllMixedContent", RawIterable []) ].

Definition valenceNormalized : list (@NormalizedDirective Req Res) :=
  [ {| directiveName := "default-src"; directiveValue := [self] |};
    {| directiveName := "block-all-mixed-content"; directiveValue := [] |} ].

(** [{ scriptSrc: ["'self'"] }] and [{ "script-src": ["'self'"] }] *)
Definition camelOnly : Options :=
  withDirectives [ ("scriptSrc", RawIterable [self]) ].

Definition kebabOnly : Options :=
  withDirectives [ ("script-src", RawIterable [self]) ].

(** [c["default-src"].push("*")] on a copy [c] of the default table. *)
Definition pushStar : @Store.Mutation Req Res :=
  Store.MutateList "default-src" (fun l => l ++ [Literal "*"]).

End Examples.

(** ** Further definitions: objects with a prototype, and what the
    statements about names, producers and the header are written with *)

(** One character of a canonical name: [[a-z0-9-]]. *)
Definition isCanonicalChar (c : ascii) : bool :=
  isLower c || isDigit c || (c =? "-")%char.

(** Number of characters of a class in a string. *)
Fixpoint countClass (cls : ascii -> bool) (s : string) : nat :=
  match s with
  | EmptyString => 0
  | String c rest => (if cls c then 1 else 0) + countClass cls rest
  end.

(** [s.split(sep)] for a separator of one character: the pieces between
    the occurrences of [sep]; one piece, [s] itself, when there is none. *)
Fixpoint splitOn (sep : ascii) (s : string) : list string :=
  match s with
  | EmptyString => [EmptyString]
  | String c rest =>
      if (c =? sep)%char
      then EmptyString :: splitOn sep rest
      else match splitOn sep rest with
           | [] => [String c EmptyString]
           | piece :: pieces => String c piece :: pieces
           end
  end.

(** *** The order in which [for ... in] visits the keys of an object

    The own string keys of an ordinary object are enumerated array indices
    first, in ascending numeric order, then the other keys in the order in
    which the properties were created. *)

Definition digitValue (c : ascii) : N := (N_of_ascii c - 48)%N.

(** The number a string of decimal digits denotes, most significant digit
    first. *)
Fixpoint decimalValue (s : string) (acc : N) : N :=
  match s with
  | EmptyString => acc
  | String c rest => decimalValue rest (10 * acc + digitValue c)%N
  end.

(** An array index: the canonical decimal form (digits only, no leading
    zero except for zero itself) of an integer from 0 to 2^32 - 2. *)
Definition isArrayIndex (key : string) : bool :=
  match key with
  | EmptyString => false
  | String c rest =>
      negb (testChar (fun a => negb (isDigit a)) key)
      && (negb (c =? "0")%char || (String.length rest =? 0))
      && (decimalValue key 0 <? 4294967295)%N
  end.

Fixpoint insertByIndex {V : Type} (p : string * V)
    (sorted : list (string * V)) : list (string * V) :=
  match sorted with
  | [] => [p]
  | q :: rest =>
      if (decimalValue p.1 0 <=? decimalValue q.1 0)%N
      then p :: q :: rest
      else q :: insertByIndex p rest
  end.

Definition sortByIndex {V : Type} (props : list (string * V))
    : list (string * V) :=
  foldr insertByIndex [] props.

(** The properties of an object in the order [for ... in] visits them,
    given in the order in which they were created (as an object literal
    lists them). *)
Definition forInOrder {V : Type} (created : list (string * V))
    : list (string * V) :=
  sortByIndex (filter (fun p => isArrayIndex p.1 = true) created)
  ++ filter (fun p => isArrayIndex p.1 = false) created.

Section Objects.

Context {IncomingMessage ServerResponse : Type}.

Local Notation Element :=
  (@ContentSecurityPolicyDirectiveValue IncomingMessage ServerResponse).
Local Notation Raw := (@RawDirectiveValue IncomingMessage ServerResponse).
Local Notation Entry := (@NormalizedDirective IncomingMessage ServerResponse).

(** A directives object with a prototype: its own enumerable properties in
    creation order, and the enumerable properties it inherits. *)
Record DirectivesObject : Type := {
  ownProperties : list (string * Raw);
  inheritedProperties : list (string * Raw)
}.

(** [Object.prototype.hasOwnProperty.call(obj, key)] *)
Definition has (obj : DirectivesObject) (key : string) : bool :=
  bool_decide (key ∈ (ownProperties obj).*1).

Fixpoint lookupRaw (key : string) (props : list (string * Raw)) : option Raw :=
  match props with
  | [] => None
  | (k, v) :: rest => if decide (k = key) then Some v else lookupRaw key rest
  end.

(** [obj[key]]: the own property, else the inherited one, else
    [undefined]. *)
Definition getProperty (obj : DirectivesObject) (key : string) : Raw :=
  match lookupRaw key (ownProperties obj) with
  | Some v => v
  | None => default RawFalsy (lookupRaw key (inheritedProperties obj))
  end.

(** The keys [for (const key in obj)] visits: the own ones, then the
    inherited ones that no own property shadows. *)
Definition forInKeys (obj : DirectivesObject) : list string :=
  (ownProperties obj).*1
  ++ filter (fun k => k ∉ (ownProperties obj).*1) ((inheritedProperties obj).*1).

(** The properties the loop of the normalizer works on: for each visited
    key that [has] accepts, the key and [rawDirectives[key]]. *)
Definition visitedProperties (obj : DirectivesObject) : list (string * Raw) :=
  omap (fun key => if has obj key then Some (key, getProperty obj key) else None)
       (forInKeys obj).

(** [normalizeDirectives({ directives: obj })] for an object with a
    prototype. *)
Definition normalizeDirectivesOf (obj : DirectivesObject)
    : completion (list Entry) :=
  normalizeDirectives (withDirectives (visitedProperties obj)).

(** Replacing every dynamic value producer [f] by [phi f]. *)
Definition mapElement
    (phi : (IncomingMessage -> ServerResponse -> string) ->
           (IncomingMessage -> ServerResponse -> string))
    (element : Element) : Element :=
  match element with
  | Literal s => Literal s
  | Dynamic f => Dynamic (phi f)
  end.

Definition mapRawValue phi (v : Raw) : Raw :=
  match v with
  | RawIterable l => RawIterable (mapElement phi <$> l)
  | RawString s => RawString s
  | RawFalsy => RawFalsy
  | dangerouslyDisableDefaultSrc => dangerouslyDisableDefaultSrc
  end.

Definition mapRawDirectives phi (raw : list (string * Raw))
    : list (string * Raw) :=
  (fun p => (p.1, mapRawValue phi p.2)) <$> raw.

Definition mapEntry phi (d : Entry) : Entry :=
  {| directiveName := directiveName d;
     directiveValue := mapElement phi <$> directiveValue d |}.

(** A value list without dynamic value producers. *)
Definition isStatic (d : Entry) : bool :=
  forallb (fun element => match element with
                          | Literal _ => true
                          | Dynamic _ => false
                          end) (directiveValue d).

(** A normalized policy written back as a configuration: each entry as a
    property with its canonical name and its value list. *)
Definition asDirectives (nd : list Entry) : list (string * Raw) :=
  (fun d => (directiveName d, RawIterable (directiveValue d))) <$> nd.

(** [{ defaultSrc: ["'self'"], 1: ["x"] }], as written. *)
Definition indexKeyDirectives : list (string * Raw) :=
  [ ("defaultSrc", RawIterable [Literal "'self'"]);
    ("1", RawIterable [Literal "x"]) ].

(** The property holds the disable sentinel. *)
Definition isDisabled (p : string * Raw) : bool :=
  match p.2 with
  | dangerouslyDisableDefaultSrc => true
  | _ => false
  end.

End Objects.

(** * Properties *)

(** ** Characters *)

Ltac by_cases_on_ascii c :=
  destruct c as [[] [] [] [] [] [] [] []]; vm_compute; congruence.

Lemma isNameChar_not_separator c :
  isNameChar c = true -> isSeparator c = false.
Proof. by_cases_on_ascii c. Qed.

Lemma isUpper_isNameChar c : isUpper c = true -> isNameChar c = true.
Proof. by_cases_on_ascii c. Qed.

Lemma toLowerCase_not_separator c :
  isUpper c = true -> isSeparator (toLowerCase c) = false.
Proof. by_cases_on_ascii c. Qed.

(** ** Strings *)

Lemma append_nil (t : string) : "" +:+ t = t.
Proof. done. Qed.

Lemma append_cons c (s t : string) : String c s +:+ t = String c (s +:+ t).
Proof. done. Qed.

Lemma append_empty_r (s : string) : s +:+ "" = s.
Proof.
  induction s as [|c s IH]; [done |]. by rewrite append_cons, IH.
Qed.

Lemma append_assoc (s1 s2 s3 : string) :
  (s1 +:+ s2) +:+ s3 = s1 +:+ (s2 +:+ s3).
Proof.
  induction s1 as [|c s1 IH]; [done |]. by rewrite !append_cons, IH.
Qed.

Lemma testChar_app cls (s1 s2 : string) :
  testChar cls (s1 +:+ s2) = testChar cls s1 || testChar cls s2.
Proof.
  induction s1 as [|c s1 IH]; [done |].
  rewrite append_cons. simpl. by rewrite IH, orb_assoc.
Qed.

Lemma countChar_app a (s1 s2 : string) :
  countChar a (s1 +:+ s2) = countChar a s1 + countChar a s2.
Proof.
  induction s1 as [|c s1 IH]; [done |].
  rewrite append_cons. simpl. rewrite IH. lia.
Qed.

Lemma valid_value_counts (s : string) :
  isDirectiveValueInvalid s = false ->
  countChar ";" s = 0 /\ countChar "," s = 0.
Proof.
  unfold isDirectiveValueInvalid.
  induction s as [|c s IH]; simpl; [done |].
  intros [Hc Hs]%orb_false_elim. destruct (IH Hs) as [-> ->].
  unfold isSeparator in Hc. apply orb_false_elim in Hc as [-> ->]. done.
Qed.

(** A valid raw name has only name characters. *)
Lemma valid_name_chars (k : string) :
  isDirectiveNameInvalid k = false ->
  testChar (fun c => negb (isNameChar c)) k = false.
Proof. unfold isDirectiveNameInvalid. by intros [_ ?]%orb_false_elim. Qed.

(** Canonicalization of name characters never produces a separator. *)
Lemma dashify_no_separator (k : string) :
  testChar (fun c => negb (isNameChar c)) k = false ->
  isDirectiveValueInvalid (dashify k) = false.
Proof.
  unfold isDirectiveValueInvalid.
  induction k as [|c k IH]; simpl; [done |].
  intros [Hc Hk]%orb_false_elim. apply negb_false_iff in Hc.
  destruct (isUpper c) eqn:Hu; simpl.
  - by rewrite toLowerCase_not_separator, IH.
  - by rewrite isNameChar_not_separator, IH.
Qed.

(** The separators in a joined string are those of the parts, plus one
    [;] between each two consecutive parts. *)
Lemma join_semicolons (parts : list string) :
  Forall (fun part => isDirectiveValueInvalid part = false) parts ->
  countChar ";" (join ";" parts) = length parts - 1
  /\ countChar "," (join ";" parts) = 0.
Proof.
  unfold join. induction 1 as [|part parts Hpart _ [IH1 IH2]]; simpl; [done |].
  destruct (valid_value_counts _ Hpart) as [H1 H2].
  destruct parts as [|part' parts]; [simpl; lia |].
  rewrite !countChar_app, H1, H2, IH1, IH2. simpl. lia.
Qed.

(** ** The normalizer *)

Section Normalizer.

Context {IncomingMessage ServerResponse : Type}.

Local Notation RawDirectives := (@RawDirectives IncomingMessage ServerResponse).
Local Notation NormalizedDirectives :=
  (@NormalizedDirectives IncomingMessage ServerResponse).

Local Notation normalize :=
  (@normalizeDirectives IncomingMessage ServerResponse).

Implicit Types (raw pre post : RawDirectives) (r : NormalizedDirectives).
Implicit Types (seen : gset string).
Implicit Types
  (options : @ContentSecurityPolicyOptions IncomingMessage ServerResponse).

(** Running the loop over [pre ++ post] is running it over [pre], then over
    [post] from the state reached. *)
Lemma normalizeLoop_app pre post r seen :
  normalizeLoop (pre ++ post) r seen =
  match normalizeLoop pre r seen with
  | Ok (r1, seen1) => normalizeLoop post r1 seen1
  | Throw e => Throw e
  end.
Proof.
  revert r seen. induction pre as [|[k v] pre IH]; intros r seen; [done |].
  simpl. destruct (isDirectiveNameInvalid k); [done |].
  case_decide; [done |].
  destruct v as [s | | | l]; try done.
  - destruct (isDirectiveValueInvalid s || false); [done | apply IH].
  - case_decide; [apply IH | done].
  - destruct (existsb _ _); [done | apply IH].
Qed.

(** What a successful run of the loop has checked and produced. *)
Lemma normalizeLoop_Ok raw r seen r' seen' :
  normalizeLoop raw r seen = Ok (r', seen') ->
  r' = r ++ omap entryOf raw
  /\ seen' = list_to_set (dashify <$> (raw.*1)) ∪ seen
  /\ NoDup (dashify <$> (raw.*1))
  /\ Forall (fun p => isDirectiveNameInvalid p.1 = false
                      /\ (dashify p.1 ∉ seen)
                      /\ valueAccepted p) raw.
Proof.
  revert r seen. induction raw as [|[k v] raw IH]; intros r seen Hrun.
  { simpl in Hrun. simplify_eq. rewrite app_nil_r.
    split_and!; [done | set_solver | constructor | constructor]. }
  simpl in Hrun.
  destruct (isDirectiveNameInvalid k) eqn:Hk; [done |].
  case_decide as Hseen; [done |].
  assert (forall r1,
    normalizeLoop raw r1 ({[dashify k]} ∪ seen) = Ok (r', seen') ->
    r' = r1 ++ omap entryOf raw
    /\ seen' = list_to_set (dashify <$> (((k, v) :: raw).*1)) ∪ seen
    /\ NoDup (dashify <$> (((k, v) :: raw).*1))
    /\ Forall (fun p => isDirectiveNameInvalid p.1 = false
                        /\ (dashify p.1 ∉ seen)
                        /\ valueAccepted p) raw) as Hrest.
  { intros r1 Hr1. destruct (IH _ _ Hr1) as (-> & -> & Hnd & Hall).
    split_and!.
    - done.
    - simpl. set_solver.
    - simpl. constructor; [| done].
      intros Hin. apply list_elem_of_fmap in Hin as (k' & Hk' & Hin).
      apply list_elem_of_fmap in Hin as ([k'' v''] & -> & Hin).
      rewrite Forall_forall in Hall. destruct (Hall _ Hin) as (_ & Hfresh & _).
      simpl in *. set_solver.
    - eapply Forall_impl; [exact Hall |].
      intros p (? & ? & ?). split_and!; [done | set_solver | done]. }
  destruct v as [s | | | l]; try done.
  - destruct (isDirectiveValueInvalid s || false) eqn:Hs; [done |].
    destruct (Hrest _ Hrun) as (-> & -> & Hnd & Hall).
    split_and!; [by rewrite <- app_assoc | done | done |].
    constructor; [| done]. split_and!; [done | done |].
    unfold valueAccepted. simpl. by rewrite orb_false_r in Hs.
  - case_decide as Hd; [| done].
    destruct (Hrest _ Hrun) as (-> & -> & Hnd & Hall).
    split_and!; [done | done | done |].
    constructor; [| done]. split_and!; done.
  - destruct (existsb isElementInvalid l) eqn:Hl; [done |].
    destruct (Hrest _ Hrun) as (-> & -> & Hnd & Hall).
    split_and!; [by rewrite <- app_assoc | done | done |].
    constructor; [| done]. split_and!; done.
Qed.

(** The loop itself never raises one of the two errors of the final checks. *)
Lemma normalizeLoop_Throw raw r seen e :
  normalizeLoop raw r seen = Throw e ->
  e <> NoDirectives /\ e <> NeedsDefaultSrc.
Proof.
  revert r seen. induction raw as [|[k v] raw IH]; intros r seen; [done |].
  simpl. destruct (isDirectiveNameInvalid k); [by intros [= <-] |].
  case_decide; [by intros [= <-] |].
  destruct v as [s | | | l].
  - destruct (isDirectiveValueInvalid s || false); [by intros [= <-] | apply IH].
  - by intros [= <-].
  - case_decide; [apply IH | by intros [= <-]].
  - destruct (existsb _ _); [by intros [= <-] | apply IH].
Qed.

Lemma entryOf_name (p : string * RawDirectiveValue)
    (d : @NormalizedDirective IncomingMessage ServerResponse) :
  entryOf p = Some d -> directiveName d = dashify p.1.
Proof.
  destruct p as [k [s | | | l]]; unfold entryOf; simpl; intros [= <-]; done.
Qed.

(** Every entry of a normalized policy comes from a property with a valid
    raw name and an accepted value, and carries its canonical name. *)
Lemma normalizeDirectives_Ok_options options nd :
  normalizeDirectives options = Ok nd ->
  let raw : list _ := default getDefaultDirectives (directives options) in
  nd = omap entryOf raw
  /\ nd <> []
  /\ NoDup (dashify <$> (raw.*1))
  /\ (exists k, k ∈ raw.*1 /\ dashify k = "default-src")
  /\ Forall (fun p => isDirectiveNameInvalid p.1 = false /\ valueAccepted p) raw.
Proof.
  unfold normalizeDirectives.
  simpl. generalize (default getDefaultDirectives (directives options)).
  intros raw.
  destruct (normalizeLoop raw [] ∅) as [[r seen] | e] eqn:Hrun; [| done].
  destruct (normalizeLoop_Ok _ _ _ _ _ Hrun) as (-> & -> & Hnd & Hall).
  simpl. destruct (length (omap entryOf raw) =? 0) eqn:Hlen; [done |].
  case_decide as Hdef; [| done]. intros [= <-].
  split_and!; [done | | done | |].
  - intros Hnil. by rewrite Hnil in Hlen.
  - rewrite union_empty_r_L, elem_of_list_to_set in Hdef.
    apply list_elem_of_fmap in Hdef as (k & ? & ?). eauto.
  - eapply Forall_impl; [exact Hall |]. by intros p (? & _ & ?).
Qed.

Lemma normalizeDirectives_Ok raw nd :
  normalize (withDirectives raw) = Ok nd ->
  nd = omap entryOf raw
  /\ nd <> []
  /\ NoDup (dashify <$> (raw.*1))
  /\ (exists k, k ∈ raw.*1 /\ dashify k = "default-src")
  /\ Forall (fun p => isDirectiveNameInvalid p.1 = false /\ valueAccepted p) raw.
Proof. apply normalizeDirectives_Ok_options. Qed.

(** C1: disabling default-src with the sentinel suppresses the error about a
    missing default-src.  For every configuration with a property whose
    canonical name is default-src and whose value is the sentinel,
    normalization never fails with the needs-default-src error, a
    successful normalization has no entry named default-src, and when no
    other property contributes an entry it fails with an error other than
    needs-default-src.  In particular
    { defaultSrc: sentinel, objectSrc: ['none'] } normalizes to the single
    entry object-src, and { defaultSrc: sentinel } alone fails with the
    no-directives error. *)
Theorem disabled_default_src_is_not_missing pre k post :
  dashify k = "default-src" ->
  let options := withDirectives (pre ++ (k, dangerouslyDisableDefaultSrc) :: post) in
  normalizeDirectives options <> Throw NeedsDefaultSrc
  /\ (forall nd, normalizeDirectives options = Ok nd ->
        nd = omap entryOf (pre ++ post)
        /\ Forall (fun d => directiveName d <> "default-src") nd)
  /\ (omap entryOf (pre ++ post) = [] ->
        exists e, normalizeDirectives options = Throw e /\ e <> NeedsDefaultSrc)
  /\ normalize
       (withDirectives [("defaultSrc", dangerouslyDisableDefaultSrc);
                        ("objectSrc", RawIterable [Literal "'none'"])])
     = Ok [ {| directiveName := "object-src";
               directiveValue := [Literal "'none'"] |} ]
  /\ normalize
       (withDirectives [("defaultSrc", dangerouslyDisableDefaultSrc)])
     = Throw NoDirectives.
Proof.
  intros Hk options.
  assert (normalizeDirectives options <> Throw NeedsDefaultSrc) as Hneeds.
  { unfold normalizeDirectives, options. simpl.
    destruct (normalizeLoop _ [] ∅) as [[r seen] | e] eqn:Hrun.
    - destruct (normalizeLoop_Ok _ _ _ _ _ Hrun) as (_ & -> & _).
      destruct (length r =? 0); [done |].
      case_decide as Hdef; [done |]. exfalso. apply Hdef.
      rewrite fmap_app, fmap_app. simpl. rewrite Hk. set_solver.
    - intros [= ->]. by destruct (normalizeLoop_Throw _ _ _ _ Hrun). }
  assert (forall nd, normalizeDirectives options = Ok nd ->
            nd = omap entryOf (pre ++ post)
            /\ Forall (fun d => directiveName d <> "default-src") nd) as Hok.
  { intros nd Hnd.
    destruct (normalizeDirectives_Ok _ _ Hnd) as (-> & _ & Hdup & _ & _).
    assert (omap entryOf (pre ++ (k, dangerouslyDisableDefaultSrc) :: post)
            = omap entryOf (pre ++ post)) as ->.
    { by rewrite !omap_app. }
    split; [done |]. apply Forall_forall. intros d Hd.
    apply list_elem_of_omap in Hd as (p & Hp & Hd).
    rewrite (entryOf_name _ _ Hd), <- Hk.
    rewrite !fmap_app in Hdup. simpl in Hdup.
    apply NoDup_app in Hdup as (_ & Hpre & [Hpost _]%NoDup_cons).
    apply elem_of_app in Hp as [Hp | Hp]; intros Heq.
    - apply (Hpre (dashify p.1)); [| rewrite Heq; left].
      apply list_elem_of_fmap_2, list_elem_of_fmap_2, Hp.
    - apply Hpost. rewrite <- Heq.
      apply list_elem_of_fmap_2, list_elem_of_fmap_2, Hp. }
  split_and!; [done | done | | done | done].
  intros Hnone. destruct (normalizeDirectives options) as [nd | e] eqn:Hrun.
  - destruct (Hok nd eq_refl) as [-> _].
    destruct (normalizeDirectives_Ok _ _ Hrun) as (_ & Hne & _).
    by rewrite Hnone in Hne.
  - exists e. split; [done | congruence].
Qed.

(** C8: the disable sentinel on a directive whose canonical name is not
    default-src is a normalization error.  Every configuration holding such
    a property fails to normalize; when the loop reaches the property (the
    properties before it are accepted, its name is valid and not yet seen)
    the error is the one about disabling something other than default-src.
    In particular { scriptSrc: sentinel } fails with that error. *)
Theorem sentinel_on_other_directive_fails pre k post :
  dashify k <> "default-src" ->
  let options := withDirectives (pre ++ (k, dangerouslyDisableDefaultSrc) :: post) in
  (exists e, normalizeDirectives options = Throw e)
  /\ (forall r1 seen1,
        normalizeLoop pre [] ∅ = Ok (r1, seen1) ->
        isDirectiveNameInvalid k = false ->
        dashify k ∉ seen1 ->
        normalizeDirectives options = Throw (DisableNotDefaultSrc (dashify k)))
  /\ normalize (withDirectives [("scriptSrc", dangerouslyDisableDefaultSrc)])
     = Throw (DisableNotDefaultSrc "script-src").
Proof.
  intros Hk options. split_and!; [| | done].
  - destruct (normalizeDirectives options) as [nd | e] eqn:Hrun; [| by eexists].
    destruct (normalizeDirectives_Ok _ _ Hrun) as (_ & _ & _ & _ & Hall).
    apply Forall_app in Hall as [_ Hall].
    apply Forall_cons in Hall as [[_ Hacc] _]. done.
  - intros r1 seen1 Hpre Hvalid Hfresh.
    unfold normalizeDirectives, options. simpl.
    rewrite normalizeLoop_app, Hpre. simpl. rewrite Hvalid.
    case_decide; [done |]. by case_decide.
Qed.

(** C6, as the code has it: normalization sees a raw name only through its
    validity and its canonical form.  Two configurations that differ in the
    spelling of one valid key, with the same canonical name, have the same
    outcome, and the property contributes the same entry; a configuration
    holding both spellings fails.  { defaultSrc: ['self'], scriptSrc:
    ['self'] } and { defaultSrc: ['self'], script-src: ['self'] } normalize
    to the same two entries; { scriptSrc: ['self'] } and { script-src:
    ['self'] } on their own both fail with the needs-default-src error;
    { scriptSrc: ['self'], script-src: ['self'] } fails with the
    duplicate-directive error for script-src. *)
Theorem canonical_name_decides_normalization pre k1 k2 v post :
  isDirectiveNameInvalid k1 = false ->
  isDirectiveNameInvalid k2 = false ->
  dashify k1 = dashify k2 ->
  normalize (withDirectives (pre ++ (k1, v) :: post))
  = normalize (withDirectives (pre ++ (k2, v) :: post))
  /\ entryOf (k1, v) = entryOf (k2, v)
  /\ (forall mid v', exists e,
        normalize (withDirectives (pre ++ (k1, v) :: mid ++ (k2, v') :: post))
        = Throw e)
  /\ normalize (withDirectives [("defaultSrc", RawIterable [Literal "'self'"]);
                                ("scriptSrc", RawIterable [Literal "'self'"])])
     = Ok [ {| directiveName := "default-src"; directiveValue := [Literal "'self'"] |};
            {| directiveName := "script-src"; directiveValue := [Literal "'self'"] |} ]
  /\ normalize (withDirectives [("defaultSrc", RawIterable [Literal "'self'"]);
                                ("script-src", RawIterable [Literal "'self'"])])
     = Ok [ {| directiveName := "default-src"; directiveValue := [Literal "'self'"] |};
            {| directiveName := "script-src"; directiveValue := [Literal "'self'"] |} ]
  /\ normalize (withDirectives [("scriptSrc", RawIterable [Literal "'self'"])])
     = Throw NeedsDefaultSrc
  /\ normalize (withDirectives [("script-src", RawIterable [Literal "'self'"])])
     = Throw NeedsDefaultSrc
  /\ normalize (withDirectives [("scriptSrc", RawIterable [Literal "'self'"]);
                                ("script-src", RawIterable [Literal "'self'"])])
     = Throw (DuplicateDirective "script-src").
Proof.
  intros Hv1 Hv2 Heq. split_and!; try done.
  - unfold normalizeDirectives. simpl. rewrite !normalizeLoop_app.
    destruct (normalizeLoop pre [] ∅) as [[r1 seen1] | e]; [| done].
    simpl. by rewrite Hv1, Hv2, Heq.
  - unfold entryOf. simpl. by rewrite Heq.
  - intros mid v'.
    destruct (normalize _) as [nd | e] eqn:Hrun; [| by eexists].
    destruct (normalizeDirectives_Ok _ _ Hrun) as (_ & _ & Hdup & _).
    rewrite !fmap_app in Hdup. simpl in Hdup. rewrite !fmap_app in Hdup.
    simpl in Hdup. apply NoDup_app in Hdup as (_ & _ & [Hdup _]%NoDup_cons).
    exfalso. apply Hdup. rewrite Heq. set_solver.
Qed.

(** C4: with no directives given, normalization takes the built-in table and
    succeeds; the result has one entry per default directive, in the order
    of the table, and exactly one entry named default-src, whose value list
    is ['self']. *)
Theorem default_configuration_normalizes :
  exists nd,
    normalize noOptions = Ok nd
    /\ nd = omap entryOf (DEFAULT_DIRECTIVES : list _)
    /\ directiveName <$> nd =
         [ "default-src"; "base-uri"; "block-all-mixed-content"; "font-src";
           "frame-ancestors"; "img-src"; "object-src"; "script-src";
           "script-src-attr"; "style-src"; "upgrade-insecure-requests" ]
    /\ filter (fun d => directiveName d = "default-src") nd =
         [ {| directiveName := "default-src";
              directiveValue := [Literal "'self'"] |} ].
Proof. eexists. split_and!; [vm_compute; reflexivity | done ..]. Qed.

End Normalizer.

(** ** The renderer *)

Section Renderer.

Context {IncomingMessage ServerResponse : Type}.

Local Notation Element :=
  (@ContentSecurityPolicyDirectiveValue IncomingMessage ServerResponse).
Local Notation NormalizedDirective :=
  (@NormalizedDirective IncomingMessage ServerResponse).
Local Notation normalize :=
  (@normalizeDirectives IncomingMessage ServerResponse).

Implicit Types (req : IncomingMessage) (res : ServerResponse).
Implicit Types (vs : list Element) (d : NormalizedDirective).
Implicit Types (nd : list NormalizedDirective) (result : list string).
Implicit Types
  (options : @ContentSecurityPolicyOptions IncomingMessage ServerResponse).

Lemma accumulate_spaced req res vs (acc : string) :
  accumulate req res vs acc = acc +:+ spaced (resolveElement req res <$> vs).
Proof.
  revert acc. induction vs as [|e vs IH]; intros acc; simpl.
  - by rewrite append_empty_r.
  - by rewrite IH, !append_assoc.
Qed.

Lemma spaced_empty (strs : list string) : spaced strs = "" <-> strs = [].
Proof. destruct strs; simpl; split; done. Qed.

Lemma spaced_invalid (strs : list string) :
  isDirectiveValueInvalid (spaced strs) = existsb isDirectiveValueInvalid strs.
Proof.
  unfold isDirectiveValueInvalid.
  induction strs as [|s strs IH]; [done |].
  simpl. by rewrite append_nil, testChar_app, IH.
Qed.

Lemma spaced_all_empty (strs : list string) :
  Forall (fun s => s = "") strs -> spaced strs = spaces (length strs).
Proof.
  induction 1 as [|s strs -> _ IH]; [done |].
  change (" " +:+ "" +:+ spaced strs = String " " (spaces (length strs))).
  by rewrite append_cons, !append_nil, IH.
Qed.

Lemma renderDirective_spaced req res d :
  renderDirective req res d =
  directiveName d +:+ spaced (resolveElement req res <$> directiveValue d).
Proof. unfold renderDirective. by rewrite accumulate_spaced. Qed.

(** One turn of the loop on an entry whose accumulated value passes. *)
Lemma renderLoop_cons_valid req res d nd result :
  accumulatedValid req res d ->
  renderLoop req res (d :: nd) result =
  renderLoop req res nd (result ++ [renderDirective req res d]).
Proof.
  unfold accumulatedValid, renderDirective. intros Hd. cbn [renderLoop].
  destruct (accumulate req res (directiveValue d) "") as [|c acc].
  - by rewrite append_empty_r.
  - cbn [isEmptyString]. by rewrite Hd.
Qed.

(** When every accumulated value passes the check, the loop pushes one
    rendered directive per entry, in order, and joins them. *)
Lemma renderLoop_valid req res nd result :
  Forall (accumulatedValid req res) nd ->
  renderLoop req res nd result =
  inl (join ";" (result ++ (renderDirective req res <$> nd))).
Proof.
  intros Hall. revert result.
  induction Hall as [|d nd Hd _ IH]; intros result.
  { by rewrite fmap_nil, app_nil_r. }
  by rewrite renderLoop_cons_valid, IH, fmap_cons, <- app_assoc.
Qed.

(** The loop returns a string only when every accumulated value passes. *)
Lemma renderLoop_inl req res nd result header :
  renderLoop req res nd result = inl header ->
  Forall (accumulatedValid req res) nd.
Proof.
  revert result. induction nd as [|d nd IH]; intros result; simpl; [done |].
  unfold accumulatedValid at 1.
  destruct (accumulate req res (directiveValue d) "") as [|c acc] eqn:Hacc; simpl.
  - intros Hrun. constructor; [by rewrite Hacc | by eapply IH].
  - destruct (isDirectiveValueInvalid (String c acc)) eqn:Hinv; [done |].
    intros Hrun. constructor; [by rewrite Hacc | by eapply IH].
Qed.

(** The first entry whose accumulated value fails the check decides the
    error. *)
Lemma renderLoop_invalid req res nd1 d nd2 result :
  Forall (accumulatedValid req res) nd1 ->
  ~ accumulatedValid req res d ->
  renderLoop req res (nd1 ++ d :: nd2) result =
  inr (InvalidDirectiveValue (directiveName d)).
Proof.
  intros Hall Hd. revert result.
  induction Hall as [|d1 nd1 Hd1 _ IH]; intros result.
  - unfold accumulatedValid in Hd. apply not_false_is_true in Hd.
    cbn [app renderLoop].
    destruct (accumulate req res (directiveValue d) "") as [|c acc]; [done |].
    cbn [isEmptyString]. by rewrite Hd.
  - rewrite <- app_comm_cons, renderLoop_cons_valid by done. apply IH.
Qed.

(** The names of a normalized policy contain no separator. *)
Lemma normalized_names_valid options nd :
  normalizeDirectives options = Ok nd ->
  Forall (fun d => isDirectiveValueInvalid (directiveName d) = false) nd.
Proof.
  intros Hnd.
  destruct (normalizeDirectives_Ok_options _ _ Hnd) as (-> & _ & _ & _ & Hall).
  apply Forall_forall. intros d Hd.
  apply list_elem_of_omap in Hd as (p & Hp & Hd).
  rewrite (entryOf_name _ _ Hd). rewrite Forall_forall in Hall.
  destruct (Hall _ Hp) as [Hvalid _].
  by apply dashify_no_separator, valid_name_chars.
Qed.

(** C2: for every accepted configuration and every request for which the
    accumulated value of each directive passes the separator check, the
    renderer returns a string; it is the rendered directives joined by [;],
    no rendered directive contains [;] or [,], so the string has one [;]
    between each two consecutive directives and no other, and no [,]. *)
Theorem header_separators_only_join_directives options nd req res :
  normalizeDirectives options = Ok nd ->
  Forall (accumulatedValid req res) nd ->
  exists header,
    getHeaderValue req res nd = inl header
    /\ header = join ";" (renderDirective req res <$> nd)
    /\ Forall (fun part => isDirectiveValueInvalid part = false)
         (renderDirective req res <$> nd)
    /\ countChar ";" header = length nd - 1
    /\ countChar "," header = 0.
Proof.
  intros Hnd Hall. eexists. split; [by apply renderLoop_valid |].
  assert (Forall (fun part => isDirectiveValueInvalid part = false)
            (renderDirective req res <$> nd)) as Hparts.
  { apply Forall_fmap. pose proof (normalized_names_valid _ _ Hnd) as Hnames.
    rewrite Forall_forall in Hall, Hnames. apply Forall_forall. intros d Hd.
    simpl. unfold renderDirective, isDirectiveValueInvalid.
    rewrite testChar_app. apply orb_false_intro; [apply Hnames | apply Hall]; done. }
  destruct (join_semicolons _ Hparts) as [H1 H2].
  rewrite length_fmap in H1. done.
Qed.

(** Along the visiting order: the header is the rendered directives joined
    by [;], one per visited property that contributes an entry, in the
    order of the visit; a rendered directive is its name followed by each
    resolved value preceded by one space, and the bare name when it has no
    value; joining puts [;] between consecutive directives and nothing
    after the last. *)
Theorem header_is_rendered_directives_joined
    (raw : list (string * RawDirectiveValue)) nd req res :
  normalize (withDirectives raw) = Ok nd ->
  Forall (accumulatedValid req res) nd ->
  getHeaderValue req res nd =
    inl (join ";" (renderDirective req res <$> omap entryOf raw))
  /\ (forall d, renderDirective req res d =
        directiveName d +:+ spaced (resolveElement req res <$> directiveValue d))
  /\ (forall d, directiveValue d = [] ->
        accumulate req res (directiveValue d) "" = ""
        /\ renderDirective req res d = directiveName d)
  /\ (forall part, join ";" [part] = part)
  /\ (forall part part' parts,
        join ";" (part :: part' :: parts) =
        part +:+ ";" +:+ join ";" (part' :: parts))
  /\ renderOptions
       (withDirectives [("defaultSrc", RawIterable [Literal "'self'"]);
                        ("blockAllMixedContent", RawIterable [])]) req res
     = Ok (inl "default-src 'self';block-all-mixed-content").
Proof.
  intros Hnd Hall. split_and!; try done.
  - destruct (normalizeDirectives_Ok _ _ Hnd) as (<- & _).
    by apply renderLoop_valid.
  - apply renderDirective_spaced.
  - intros d Hd. unfold renderDirective. rewrite Hd. simpl.
    by rewrite append_empty_r.
Qed.

(** C10: the empty string is accepted as a directive value and becomes the
    one-element list [""]; a directive with a non-empty value list whose
    elements all resolve to the empty string accumulates one space per
    element, which is not the empty string, so it renders as the name
    followed by those spaces and not as the bare name.  { defaultSrc: "" }
    normalizes to default-src with the value list [""] and renders to
    "default-src " with a trailing space. *)
Theorem empty_string_value_renders_spaces (name : string) vs req res :
  vs <> [] ->
  Forall (fun element => resolveElement req res element = "") vs ->
  accumulate req res vs "" = spaces (length vs)
  /\ isEmptyString (accumulate req res vs "") = false
  /\ getHeaderValue req res
       [ {| directiveName := name; directiveValue := vs |} ]
     = inl (name +:+ spaces (length vs))
  /\ (forall k rest r seen,
        isDirectiveNameInvalid k = false ->
        dashify k ∉ seen ->
        normalizeLoop ((k, RawString "") :: rest) r seen =
        normalizeLoop rest
          (r ++ [ {| directiveName := dashify k;
                     directiveValue := [Literal ""] : list Element |} ])
          ({[dashify k]} ∪ seen))
  /\ normalize (withDirectives [("defaultSrc", RawString "")])
     = Ok [ {| directiveName := "default-src"; directiveValue := [Literal ""] |} ]
  /\ renderOptions (withDirectives [("defaultSrc", RawString "")]) req res
     = Ok (inl "default-src ").
Proof.
  intros Hne Hall.
  assert (accumulate req res vs "" = spaces (length vs)) as Hacc.
  { rewrite accumulate_spaced, append_nil.
    rewrite <- (length_fmap (resolveElement req res)).
    apply spaced_all_empty. by apply Forall_fmap. }
  assert (isDirectiveValueInvalid (spaces (length vs)) = false) as Hvalid.
  { clear. induction (length vs); [done | by simpl]. }
  split_and!; try done.
  - rewrite Hacc. by destruct vs.
  - unfold getHeaderValue.
    rewrite (renderLoop_valid _ _ _ []).
    + unfold renderDirective. simpl. by rewrite Hacc.
    + constructor; [| done]. unfold accumulatedValid. simpl. by rewrite Hacc.
  - intros k rest r seen Hk Hseen. simpl. rewrite Hk. by case_decide.
Qed.

(** C9: a raw name that begins with an upper-case letter is canonicalized
    to a name with a leading hyphen.  The upper-case first letter passes
    the character check, the canonical name differs from default-src, a
    configuration with that property alone never normalizes (with a valid
    name and value list it fails with needs-default-src), and in a
    configuration that normalizes the name is emitted as it is, hyphen
    first.  { DefaultSrc: ['self'] } fails with needs-default-src and
    { defaultSrc: ['self'], DefaultSrc: ['none'] } renders to
    "default-src 'self';-default-src 'none'". *)
Theorem leading_uppercase_gives_leading_hyphen (c : ascii) (rest : string) :
  isUpper c = true ->
  let k := String c rest in
  let name := String "-" (String (toLowerCase c) (dashify rest)) in
  dashify k = name
  /\ isDirectiveNameInvalid k = testChar (fun a => negb (isNameChar a)) rest
  /\ name <> "default-src"
  /\ (forall v, exists e, normalize (withDirectives [(k, v)]) = Throw e)
  /\ (forall l,
        isDirectiveNameInvalid k = false ->
        existsb isElementInvalid l = false ->
        normalize (withDirectives [(k, RawIterable l)]) = Throw NeedsDefaultSrc)
  /\ (forall pre v post nd req res header,
        normalize (withDirectives (pre ++ (k, v) :: post)) = Ok nd ->
        getHeaderValue req res nd = inl header ->
        exists vs before after,
          {| directiveName := name; directiveValue := vs |} ∈ nd
          /\ header = join ";"
               (before ++ (name +:+ accumulate req res vs "") :: after))
  /\ (forall req res,
        normalize (withDirectives [("DefaultSrc", RawIterable [Literal "'self'"])])
        = Throw NeedsDefaultSrc
        /\ renderOptions
             (withDirectives [("defaultSrc", RawIterable [Literal "'self'"]);
                              ("DefaultSrc", RawIterable [Literal "'none'"])])
             req res
           = Ok (inl "default-src 'self';-default-src 'none'")).
Proof.
  intros Hc k name.
  assert (dashify k = name) as Hname by (unfold k, name; simpl; by rewrite Hc).
  assert (name <> "default-src") as Hne by (unfold name; congruence).
  split_and!; try done.
  - unfold isDirectiveNameInvalid, k. simpl.
    by rewrite (isUpper_isNameChar _ Hc).
  - intros v. destruct (normalize _) as [nd | e] eqn:Hrun; [| by eexists].
    destruct (normalizeDirectives_Ok _ _ Hrun) as (_ & _ & _ & (k' & Hk' & Hd) & _).
    simpl in Hk'. apply list_elem_of_singleton in Hk' as ->. congruence.
  - intros l Hvalid Hl. unfold normalizeDirectives. simpl.
    rewrite Hvalid, Hc. fold name. case_decide as Hin; [set_solver |].
    rewrite Hl. simpl. case_decide as Hd; [| done].
    set_solver.
  - intros pre v post nd req res header Hnd Hheader.
    destruct (normalizeDirectives_Ok _ _ Hnd) as (-> & _ & _ & _ & Hall).
    apply renderLoop_inl in Hheader as Hvalid.
    unfold getHeaderValue in Hheader.
    rewrite (renderLoop_valid _ _ _ _ Hvalid) in Hheader.
    injection Hheader as <-.
    apply Forall_app in Hall as [_ Hall].
    apply Forall_cons in Hall as [[_ Hacc] _].
    assert (exists vs, entryOf (k, v)
              = Some {| directiveName := name; directiveValue := vs |})
      as [vs Hentry].
    { unfold entryOf, valueAccepted in *. cbn [fst snd] in *.
      rewrite Hname in *.
      destruct v as [s | | | l]; [by eexists | done | done | by eexists]. }
    exists vs, (renderDirective req res <$> omap entryOf pre),
      (renderDirective req res <$> omap entryOf post).
    rewrite omap_app.
    change (omap entryOf ((k, v) :: post))
      with (match entryOf (k, v) with
            | Some d => d :: omap entryOf post
            | None => omap entryOf post
            end).
    rewrite Hentry. split.
    + apply elem_of_app. right. left.
    + by rewrite fmap_app, fmap_cons.
Qed.

End Renderer.

(** ** The request handler *)

Section Middleware.

Context {IncomingMessage ServerResponse : Type}.

Implicit Types (req : IncomingMessage) (res : ServerResponse).
Implicit Types
  (options : @ContentSecurityPolicyOptions IncomingMessage ServerResponse).

Lemma accumulate_invalid req res
    (vs : list (@ContentSecurityPolicyDirectiveValue IncomingMessage ServerResponse)) :
  isDirectiveValueInvalid (accumulate req res vs "") =
  existsb (fun element => isDirectiveValueInvalid (resolveElement req res element)) vs.
Proof.
  rewrite accumulate_spaced, append_nil, spaced_invalid.
  induction vs as [|e vs IH]; [done |]. rewrite fmap_cons. simpl. by rewrite IH.
Qed.

(** C3: for every request, when rendering returns an error the middleware
    calls the continuation with that error and does nothing else, so no
    header is set; when rendering returns a string it sets the selected
    header to that string, once, and then calls the continuation with no
    argument.  A header is set exactly when rendering succeeds; rendering
    fails whenever a dynamic value producer returns a string containing
    [;] or [,]. *)
Theorem middleware_sets_header_only_on_success options middleware req res :
  contentSecurityPolicy options = Ok middleware ->
  exists nd,
    normalizeDirectives options = Ok nd
    /\ match getHeaderValue req res nd with
       | inr error => middleware req res = [Next (Some error)]
       | inl value =>
           middleware req res =
           [SetHeader (selectHeaderName options) value; Next None]
       end
    /\ (headersSet (middleware req res) = [] <->
        exists error, getHeaderValue req res nd = inr error)
    /\ (forall d f,
          d ∈ nd -> Dynamic f ∈ directiveValue d ->
          isDirectiveValueInvalid (f req res) = true ->
          exists error,
            getHeaderValue req res nd = inr error
            /\ middleware req res = [Next (Some error)]
            /\ headersSet (middleware req res) = []
            /\ nextCalls (middleware req res) = [Some error]).
Proof.
  unfold contentSecurityPolicy.
  destruct (normalizeDirectives options) as [nd | e]; [| done].
  intros [= <-]. exists nd. unfold contentSecurityPolicyMiddleware.
  split_and!; [done | by destruct (getHeaderValue req res nd) | |].
  - destruct (getHeaderValue req res nd) as [value | error]; simpl.
    + split; [done | by intros [? ?]].
    + split; [by eexists | done].
  - intros d f Hd Hf Hinv.
    destruct (getHeaderValue req res nd) as [value | error] eqn:Hrun;
      [| by eexists].
    apply renderLoop_inl in Hrun. rewrite Forall_forall in Hrun.
    specialize (Hrun d Hd). unfold accumulatedValid in Hrun.
    rewrite accumulate_invalid in Hrun.
    assert (existsb
              (fun element => isDirectiveValueInvalid (resolveElement req res element))
              (directiveValue d) = true) as Hex; [| congruence].
    apply existsb_exists. exists (Dynamic f).
    split; [by apply list_elem_of_In | done].
Qed.

End Middleware.

(** ** The default table and its copies *)

Section DefaultTable.

Context {IncomingMessage ServerResponse : Type}.

Local Notation store := (@Store.store IncomingMessage ServerResponse).
Local Notation DEFAULT_DIRECTIVES_ref :=
  (@Store.DEFAULT_DIRECTIVES_ref IncomingMessage ServerResponse).

Implicit Types (h : store) (o c : Store.loc).

(** Once the module is loaded, a copy of the table reads as the table of
    the source. *)
Lemma moduleStore_readDefaults :
  Store.readDefaults (@Store.moduleStore IncomingMessage ServerResponse)
  = Some DEFAULT_DIRECTIVES.
Proof. vm_compute. reflexivity. Qed.

(** Reading an object depends on its own properties and on the arrays. *)
Lemma readObject_frame h h' o :
  Store.arrays h' = Store.arrays h ->
  Store.objects h' !! o = Store.objects h !! o ->
  Store.readObject h' o = Store.readObject h o.
Proof. intros Harr Hobj. unfold Store.readObject. by rewrite Hobj, Harr. Qed.

(** A call allocates one new object and touches nothing else. *)
Lemma getDefaultDirectives_alloc h c h' :
  Store.getDefaultDirectives h = (c, h') ->
  (c ∉ dom (Store.objects h))
  /\ Store.arrays h' = Store.arrays h
  /\ Store.objects h' =
       <[c := default [] (Store.objects h !! DEFAULT_DIRECTIVES_ref)]>
         (Store.objects h).
Proof.
  unfold Store.getDefaultDirectives, Store.spread, Store.allocObject.
  intros [= <- <-]. split_and!; [apply is_fresh | done | done].
Qed.

(** A mutation of the mapping through [c] changes the object [c] only. *)
Lemma applyMutation_mapping h c m :
  Store.isMappingMutation m = true ->
  Store.arrays (Store.applyMutation c m h) = Store.arrays h
  /\ forall o, o <> c ->
       Store.objects (Store.applyMutation c m h) !! o = Store.objects h !! o.
Proof.
  destruct m as [k v | k | k f]; [| | done]; intros _; simpl;
    (split; [done | intros o Ho; by rewrite lookup_alter_ne]).
Qed.

(** What one call does, in a store that holds the default table. *)
Lemma getDefaultDirectives_call h c h' :
  is_Some (Store.objects h !! DEFAULT_DIRECTIVES_ref) ->
  Store.getDefaultDirectives h = (c, h') ->
  (c ∉ dom (Store.objects h))
  /\ c <> DEFAULT_DIRECTIVES_ref
  /\ Store.objects h' !! c = Store.objects h !! DEFAULT_DIRECTIVES_ref
  /\ Store.arrays h' = Store.arrays h
  /\ Store.readObject h' c = Store.readObject h DEFAULT_DIRECTIVES_ref
  /\ forall o, o <> c -> Store.readObject h' o = Store.readObject h o.
Proof.
  intros [props Hprops] Hcall.
  destruct (getDefaultDirectives_alloc _ _ _ Hcall) as (Hfresh & Harr & Hobj).
  assert (c <> DEFAULT_DIRECTIVES_ref) as Hne.
  { intros ->. apply Hfresh, elem_of_dom. by eexists. }
  assert (Store.objects h' !! c = Store.objects h !! DEFAULT_DIRECTIVES_ref)
    as Hc.
  { by rewrite Hobj, lookup_insert_eq, Hprops. }
  split_and!; [done | done | done | done | |].
  - unfold Store.readObject. by rewrite Hc, Harr.
  - intros o Ho. apply readObject_frame; [done |].
    by rewrite Hobj, lookup_insert_ne.
Qed.

(** What the spread does protect: every call returns a new object that
    holds the properties of the default table, with the same value lists by
    reference (no array is copied), and mutations of the mapping made
    through one returned copy (setting or deleting a property) do not show
    in the default table or in another call's copy. *)
Theorem getDefaultDirectives_copies_the_mapping h :
  is_Some (Store.objects h !! DEFAULT_DIRECTIVES_ref) ->
  (forall c h', Store.getDefaultDirectives h = (c, h') ->
     (c ∉ dom (Store.objects h))
     /\ c <> DEFAULT_DIRECTIVES_ref
     /\ Store.objects h' !! c = Store.objects h !! DEFAULT_DIRECTIVES_ref
     /\ Store.arrays h' = Store.arrays h
     /\ Store.readObject h' c = Store.readObject h DEFAULT_DIRECTIVES_ref
     /\ forall o, o <> c -> Store.readObject h' o = Store.readObject h o)
  /\ Store.copiesIndependentFor Store.isMappingMutation h.
Proof.
  intros Htable.
  split; [intros c h'; by apply getDefaultDirectives_call |].
  intros m Hm.
  destruct (Store.getDefaultDirectives h) as [c1 h1] eqn:H1.
  destruct (Store.getDefaultDirectives h1) as [c2 h2] eqn:H2.
  destruct (getDefaultDirectives_call _ _ _ Htable H1) as (Hf1 & Hne1 & Hc1 & _).
  destruct (getDefaultDirectives_alloc _ _ _ H1) as (_ & _ & Hobj1).
  assert (is_Some (Store.objects h1 !! DEFAULT_DIRECTIVES_ref)) as Htable1.
  { by rewrite Hobj1, lookup_insert_ne. }
  destruct (getDefaultDirectives_call _ _ _ Htable1 H2) as (Hf2 & Hne2 & _).
  assert (c2 <> c1) as Hne12.
  { intros ->. apply Hf2. rewrite Hobj1. set_solver. }
  destruct (applyMutation_mapping h2 c1 m Hm) as [Harr Hobj].
  split; apply readObject_frame; auto.
Qed.

End DefaultTable.

(** ** Instances on the example configurations *)

Lemma disabled_default_src_is_not_missing_witness :
  dashify "defaultSrc" = "default-src"
  /\ normalizeDirectives Examples.disabledOptions <> Throw NeedsDefaultSrc
  /\ forall nd, normalizeDirectives Examples.disabledOptions = Ok nd ->
       Forall (fun d => directiveName d <> "default-src") nd.
Proof.
  split; [reflexivity |].
  pose proof (disabled_default_src_is_not_missing
                (IncomingMessage := Examples.Req) (ServerResponse := Examples.Res)
                [] "defaultSrc" [("objectSrc", RawIterable [Examples.none])]
                eq_refl) as (Hneeds & Hok & _).
  split; [exact Hneeds | intros nd Hnd; exact (proj2 (Hok nd Hnd))].
Defined.

Lemma header_separators_only_join_directives_witness :
  normalizeDirectives Examples.nonceOptions = Ok Examples.nonceNormalized
  /\ Forall (accumulatedValid () "abc") Examples.nonceNormalized
  /\ exists header,
       getHeaderValue () "abc" Examples.nonceNormalized = inl header
       /\ countChar ";" header = 1
       /\ countChar "," header = 0.
Proof.
  assert (normalizeDirectives Examples.nonceOptions = Ok Examples.nonceNormalized)
    as Hnd by (vm_compute; reflexivity).
  assert (Forall (accumulatedValid () "abc") Examples.nonceNormalized) as Hall
    by (repeat constructor).
  split; [exact Hnd |]. split; [exact Hall |].
  destruct (header_separators_only_join_directives _ _ _ _ Hnd Hall)
    as (header & Hrun & _ & _ & Hsemi & Hcomma).
  exists header. split; [exact Hrun |]. split; [exact Hsemi | exact Hcomma].
Defined.

Lemma middleware_sets_header_only_on_success_witness :
  exists middleware,
    contentSecurityPolicy Examples.nonceOptions = Ok middleware
    /\ middleware () "abc" =
         [ SetHeader "Content-Security-Policy"
             "default-src 'self';script-src 'self' 'nonce-abc'";
           Next None ]
    /\ middleware () "a;b" = [ Next (Some (InvalidDirectiveValue "script-src")) ]
    /\ headersSet (middleware () "a;b") = [].
Proof.
  eexists. split; [reflexivity |].
  destruct (middleware_sets_header_only_on_success Examples.nonceOptions
              _ () "abc" eq_refl) as (nd & Hnd & Hclean & _).
  destruct (middleware_sets_header_only_on_success Examples.nonceOptions
              _ () "a;b" eq_refl) as (nd' & Hnd' & Hdirty & Hnone & _).
  vm_compute in Hnd, Hnd'. injection Hnd as <-. injection Hnd' as <-.
  split; [exact Hclean |]. split; [exact Hdirty |].
  apply Hnone. eexists. reflexivity.
Defined.

Lemma getDefaultDirectives_copies_the_mapping_witness :
  is_Some (Store.objects (@Store.moduleStore Examples.Req Examples.Res)
             !! @Store.DEFAULT_DIRECTIVES_ref Examples.Req Examples.Res)
  /\ Store.copiesIndependentFor Store.isMappingMutation
       (@Store.moduleStore Examples.Req Examples.Res).
Proof.
  assert (is_Some (Store.objects (@Store.moduleStore Examples.Req Examples.Res)
                     !! @Store.DEFAULT_DIRECTIVES_ref Examples.Req Examples.Res))
    as Htable by (vm_compute; eexists; reflexivity).
  split; [exact Htable |].
  exact (proj2 (getDefaultDirectives_copies_the_mapping _ Htable)).
Defined.

(** C5: the copies are not independent of the shared table.  The accessor
    copies the mapping and not the value lists, so, once the module is
    loaded, [getDefaultDirectives()["default-src"].push("*")] through one
    returned copy changes what the default table and another call's copy
    read. *)
Lemma default_value_lists_are_shared :
  ~ @Store.copiesIndependent Examples.Req Examples.Res Store.moduleStore.
Proof.
  intros Hindep. specialize (Hindep Examples.pushStar eq_refl).
  vm_compute in Hindep. destruct Hindep as [Htable _]. discriminate Htable.
Qed.

(** After the push, a new copy of the defaults reads default-src as
    ['self', '*']. *)
Example push_through_copy_reaches_defaults :
  let '(c1, h1) := Store.getDefaultDirectives Store.moduleStore in
  head <$> Store.readDefaults (Store.applyMutation c1 Examples.pushStar h1)
  = Some (Some ("default-src", RawIterable [Examples.self; Literal "*"])).
Proof. vm_compute. reflexivity. Qed.

Lemma canonical_name_decides_normalization_witness :
  isDirectiveNameInvalid "scriptSrc" = false
  /\ isDirectiveNameInvalid "script-src" = false
  /\ dashify "scriptSrc" = dashify "script-src"
  /\ normalizeDirectives
       (withDirectives [("defaultSrc", RawIterable [Examples.self]);
                        ("scriptSrc", RawIterable [Examples.self])])
     = normalizeDirectives
         (withDirectives [("defaultSrc", RawIterable [Examples.self]);
                          ("script-src", RawIterable [Examples.self])]).
Proof.
  split; [reflexivity |]. split; [reflexivity |]. split; [reflexivity |].
  exact (proj1 (canonical_name_decides_normalization
                  [("defaultSrc", RawIterable [Examples.self])]
                  "scriptSrc" "script-src" (RawIterable [Examples.self]) []
                  eq_refl eq_refl eq_refl)).
Defined.

(** Neither spelling normalizes on its own, there being no default-src:
    no normalized entries are produced for either. *)
Lemma script_src_alone_does_not_normalize :
  ~ (exists nd,
       normalizeDirectives Examples.camelOnly = Ok nd
       /\ normalizeDirectives Examples.kebabOnly = Ok nd)
  /\ normalizeDirectives Examples.camelOnly = Throw NeedsDefaultSrc
  /\ normalizeDirectives Examples.kebabOnly = Throw NeedsDefaultSrc.
Proof.
  split_and!; [| vm_compute; reflexivity | vm_compute; reflexivity].
  intros (nd & Hnd & _). vm_compute in Hnd. discriminate Hnd.
Qed.

Lemma header_is_rendered_directives_joined_witness :
  normalizeDirectives Examples.valenceOptions = Ok Examples.valenceNormalized
  /\ Forall (accumulatedValid () "abc") Examples.valenceNormalized
  /\ getHeaderValue () "abc" Examples.valenceNormalized
     = inl "default-src 'self';block-all-mixed-content".
Proof.
  assert (normalizeDirectives Examples.valenceOptions
          = Ok Examples.valenceNormalized) as Hnd by (vm_compute; reflexivity).
  assert (Forall (accumulatedValid () "abc") Examples.valenceNormalized) as Hall
    by (repeat constructor).
  split; [exact Hnd |]. split; [exact Hall |].
  exact (proj1 (header_is_rendered_directives_joined _ _ _ _ Hnd Hall)).
Defined.

Lemma sentinel_on_other_directive_fails_witness :
  dashify "scriptSrc" <> "default-src"
  /\ exists e,
       normalizeDirectives
         (withDirectives
            [("scriptSrc", @dangerouslyDisableDefaultSrc Examples.Req Examples.Res)])
       = Throw e.
Proof.
  assert (dashify "scriptSrc" <> "default-src") as Hne
    by (vm_compute; discriminate).
  split; [exact Hne |].
  exact (proj1 (sentinel_on_other_directive_fails [] "scriptSrc" [] Hne)).
Defined.

Lemma leading_uppercase_gives_leading_hyphen_witness :
  isUpper "D" = true
  /\ dashify "DefaultSrc" = "-default-src"
  /\ normalizeDirectives
       (withDirectives [("DefaultSrc", RawIterable [Examples.self])])
     = Throw NeedsDefaultSrc.
Proof.
  split; [reflexivity |].
  destruct (leading_uppercase_gives_leading_hyphen
              (IncomingMessage := Examples.Req) (ServerResponse := Examples.Res)
              "D" "efaultSrc" eq_refl) as (Hname & _ & _ & _ & Hneeds & _).
  split; [exact Hname |]. exact (Hneeds [Examples.self] eq_refl eq_refl).
Defined.

Lemma empty_string_value_renders_spaces_witness :
  ([Literal ""; Literal ""] : list Examples.Element) <> []
  /\ Forall (fun element => resolveElement () "" element = "")
       [Literal ""; Literal ""]
  /\ getHeaderValue (ServerResponse := Examples.Res) () ""
       [ {| directiveName := "default-src";
            directiveValue := [Literal ""; Literal ""] |} ]
     = inl "default-src  ".
Proof.
  assert (Forall (fun element => resolveElement (IncomingMessage := Examples.Req)
                                   (ServerResponse := Examples.Res) () "" element = "")
            [Literal ""; Literal ""]) as Hall by (repeat constructor).
  split; [discriminate |]. split; [exact Hall |].
  destruct (empty_string_value_renders_spaces "default-src"
              [Literal ""; Literal ""] () ""
              ltac:(discriminate) Hall) as (_ & _ & Hrun & _).
  exact Hrun.
Defined.

(** * Further properties of the code *)

(** ** Canonical names *)

Lemma toLowerCase_not_upper c :
  isUpper c = true -> isUpper (toLowerCase c) = false.
Proof. by_cases_on_ascii c. Qed.

Lemma toLowerCase_canonical c :
  isUpper c = true -> isCanonicalChar (toLowerCase c) = true.
Proof. by_cases_on_ascii c. Qed.

Lemma isNameChar_canonical c :
  isNameChar c = true -> isUpper c = false -> isCanonicalChar c = true.
Proof. by_cases_on_ascii c. Qed.

Lemma isCanonicalChar_not_upper c :
  isCanonicalChar c = true -> isUpper c = false.
Proof. by_cases_on_ascii c. Qed.

Lemma isCanonicalChar_not_space c :
  isCanonicalChar c = true -> (c =? " ")%char = false.
Proof. by_cases_on_ascii c. Qed.

Lemma countClass_zero cls (s : string) :
  countClass cls s = 0 <-> testChar cls s = false.
Proof.
  induction s as [|c s IH]; simpl; [done |].
  destruct (cls c); simpl; [split; [lia | done] | done].
Qed.

Lemma dashify_length_upper (s : string) :
  String.length (dashify s) = String.length s + countClass isUpper s.
Proof.
  induction s as [|c s IH]; simpl; [done |].
  destruct (isUpper c); simpl; rewrite IH; lia.
Qed.

Lemma dashify_no_upper_fixed (s : string) :
  testChar isUpper s = false -> dashify s = s.
Proof.
  induction s as [|c s IH]; simpl; [done |].
  intros [-> Hs]%orb_false_elim. by rewrite IH.
Qed.

Lemma dashify_not_upper (s : string) : testChar isUpper (dashify s) = false.
Proof.
  induction s as [|c s IH]; simpl; [done |].
  destruct (isUpper c) eqn:Hc; simpl.
  - by rewrite toLowerCase_not_upper, IH.
  - by rewrite Hc, IH.
Qed.

(** X1: canonicalization works letter by letter, so it distributes over
    concatenation, and it lengthens a name by one character for each
    upper-case letter in it. *)
Theorem dashify_append_and_length (s1 s2 : string) :
  dashify (s1 +:+ s2) = dashify s1 +:+ dashify s2
  /\ String.length (dashify s1) = String.length s1 + countClass isUpper s1.
Proof.
  split; [| apply dashify_length_upper].
  induction s1 as [|c s1 IH]; [done |].
  rewrite append_cons. simpl. destruct (isUpper c);
    by rewrite ?append_cons, IH.
Qed.

(** X2: canonicalization leaves a name unchanged exactly when the name has
    no upper-case letter; its result never has one, so canonicalizing twice
    is canonicalizing once. *)
Theorem dashify_fixed_points (s : string) :
  (dashify s = s <-> testChar isUpper s = false)
  /\ testChar isUpper (dashify s) = false
  /\ dashify (dashify s) = dashify s.
Proof.
  split_and!.
  - split; [| apply dashify_no_upper_fixed].
    intros Heq. apply countClass_zero.
    pose proof (dashify_length_upper s) as Hlen. rewrite Heq in Hlen. lia.
  - apply dashify_not_upper.
  - apply dashify_no_upper_fixed, dashify_not_upper.
Qed.

(** ** What the normalizer accepts *)

Section Acceptance.

Context {IncomingMessage ServerResponse : Type}.

Local Notation Raw := (@RawDirectiveValue IncomingMessage ServerResponse).
Local Notation Entry := (@NormalizedDirective IncomingMessage ServerResponse).
Local Notation normalize :=
  (@normalizeDirectives IncomingMessage ServerResponse).

Implicit Types (raw pre post : list (string * Raw)) (r nd : list Entry).
Implicit Types (seen : gset string) (p : string * Raw).
Implicit Types
  (options : @ContentSecurityPolicyOptions IncomingMessage ServerResponse).

(** The loop accepts every sequence of properties with valid names,
    distinct canonical names not seen before, and accepted values. *)
Lemma normalizeLoop_accepts raw r seen :
  Forall (fun p => isDirectiveNameInvalid p.1 = false /\ valueAccepted p) raw ->
  NoDup (dashify <$> (raw.*1)) ->
  (forall k, k ∈ raw.*1 -> dashify k ∉ seen) ->
  normalizeLoop raw r seen =
  Ok (r ++ omap entryOf raw, list_to_set (dashify <$> (raw.*1)) ∪ seen).
Proof.
  intros Hall. revert r seen.
  induction Hall as [|[k v] raw [Hk Hv] _ IH]; intros r seen Hdup Hfresh.
  { simpl. rewrite app_nil_r. do 2 f_equal. set_solver. }
  rewrite !fmap_cons in Hdup. apply NoDup_cons in Hdup as [Hhead Hdup].
  assert (forall r1,
    normalizeLoop raw r1 ({[dashify k]} ∪ seen) =
    Ok (r1 ++ omap entryOf raw,
        list_to_set (dashify <$> (((k, v) :: raw).*1)) ∪ seen)) as Hrest.
  { intros r1. rewrite IH; [| done |].
    - do 2 f_equal. simpl. set_solver.
    - intros k' Hk'. apply not_elem_of_union. split.
      + intros Heq%elem_of_singleton. apply Hhead. simpl. rewrite <- Heq.
        by apply list_elem_of_fmap_2.
      + apply Hfresh. simpl. by right. }
  simpl in Hk. cbn [normalizeLoop]. rewrite Hk.
  case_decide as Hseen.
  { exfalso. apply (Hfresh k); [simpl; left | done]. }
  unfold valueAccepted in Hv. simpl in Hv.
  destruct v as [s | | | l]; [| done | |].
  - transitivity
      (normalizeLoop raw
         (r ++ [ {| directiveName := dashify k;
                    directiveValue := [Literal s] |} ])
         ({[dashify k]} ∪ seen)).
    + simpl. by rewrite Hv.
    + rewrite Hrest. by rewrite <- app_assoc.
  - case_decide; [| done]. by rewrite Hrest.
  - rewrite Hv, Hrest. by rewrite <- app_assoc.
Qed.

(** X3: the exact conditions under which a configuration normalizes: every
    raw name is valid, the canonical names are pairwise distinct, every
    value is accepted (a string or a list whose literal elements have no
    [;] or [,], or the sentinel on default-src), some key canonicalizes to
    default-src, and at least one property contributes an entry.  The
    result is then the sequence of contributed entries. *)
Theorem normalizeDirectives_accepts_iff raw nd :
  normalize (withDirectives raw) = Ok nd <->
  nd = omap entryOf raw
  /\ nd <> []
  /\ NoDup (dashify <$> (raw.*1))
  /\ (exists k, k ∈ raw.*1 /\ dashify k = "default-src")
  /\ Forall (fun p => isDirectiveNameInvalid p.1 = false /\ valueAccepted p) raw.
Proof.
  split; [apply normalizeDirectives_Ok |].
  intros (-> & Hne & Hdup & (k & Hk & Hdef) & Hall).
  unfold normalizeDirectives. simpl.
  rewrite (normalizeLoop_accepts _ _ _ Hall Hdup) by set_solver.
  rewrite app_nil_l. destruct (omap entryOf raw) as [|d nd]; [done |].
  simpl. case_decide as Hin; [done |]. exfalso. apply Hin.
  apply elem_of_union_l, elem_of_list_to_set. rewrite <- Hdef.
  by apply list_elem_of_fmap_2.
Qed.

Lemma dashify_canonical (k : string) :
  isDirectiveNameInvalid k = false ->
  dashify k <> ""
  /\ testChar (fun c => negb (isCanonicalChar c)) (dashify k) = false.
Proof.
  unfold isDirectiveNameInvalid. intros [Hlen Hchars]%orb_false_elim. split.
  - destruct k as [|c k]; [done |]. simpl. by destruct (isUpper c).
  - clear Hlen. induction k as [|c k IH]; [done |].
    simpl in Hchars. apply orb_false_elim in Hchars as [Hc Hk].
    apply negb_false_iff in Hc. simpl.
    destruct (isUpper c) eqn:Hu; simpl.
    + by rewrite toLowerCase_canonical, IH.
    + by rewrite isNameChar_canonical, IH.
Qed.

Lemma entry_names_sublist raw :
  (directiveName <$> omap entryOf raw : list string)
    `sublist_of` (dashify <$> (raw.*1)).
Proof.
  induction raw as [|[k v] raw IH]; [done |].
  rewrite !fmap_cons.
  change (omap entryOf ((k, v) :: raw))
    with (match entryOf (k, v) with
          | Some d => d :: omap entryOf raw
          | None => omap entryOf raw
          end).
  destruct (entryOf (k, v)) as [d |] eqn:Hentry.
  - rewrite fmap_cons, (entryOf_name _ _ Hentry). by apply sublist_skip.
  - by apply sublist_cons.
Qed.

(** X4: the names of a normalized policy are pairwise distinct, not empty,
    and made of lower-case letters, digits and hyphens only. *)
Theorem normalized_names_canonical options nd :
  normalizeDirectives options = Ok nd ->
  NoDup (directiveName <$> nd)
  /\ Forall (fun d =>
               directiveName d <> ""
               /\ testChar (fun c => negb (isCanonicalChar c)) (directiveName d)
                  = false) nd.
Proof.
  intros Hnd.
  destruct (normalizeDirectives_Ok_options _ _ Hnd) as (-> & _ & Hdup & _ & Hall).
  split.
  - eapply sublist_NoDup; [exact Hdup | apply entry_names_sublist].
  - apply Forall_forall. intros d Hd.
    apply list_elem_of_omap in Hd as (p & Hp & Hd).
    rewrite (entryOf_name _ _ Hd). rewrite Forall_forall in Hall.
    apply dashify_canonical, (Hall p Hp).
Qed.

End Acceptance.

(** ** Errors and edge cases of the normalizer *)

Section Rejection.

Context {IncomingMessage ServerResponse : Type}.

Local Notation Element :=
  (@ContentSecurityPolicyDirectiveValue IncomingMessage ServerResponse).
Local Notation Raw := (@RawDirectiveValue IncomingMessage ServerResponse).
Local Notation Entry := (@NormalizedDirective IncomingMessage ServerResponse).
Local Notation normalize :=
  (@normalizeDirectives IncomingMessage ServerResponse).

Implicit Types (raw pre post : list (string * Raw)) (r nd : list Entry).
Implicit Types (seen : gset string) (p : string * Raw) (v : Raw).

Lemma omap_entryOf_cons p raw :
  omap entryOf (p :: raw) =
  match entryOf p with
  | Some d => d :: omap entryOf raw
  | None => omap entryOf raw
  end.
Proof. done. Qed.

(** An accepted property contributes an entry unless it is the sentinel. *)
Lemma accepted_entry p :
  valueAccepted p ->
  if isDisabled p
  then entryOf p = None /\ dashify p.1 = "default-src"
  else is_Some (entryOf p).
Proof.
  destruct p as [k [s | | | l]]; unfold valueAccepted, isDisabled, entryOf;
    simpl; intros Hv; [by eexists | done | done | by eexists].
Qed.

(** Among accepted properties with distinct canonical names, at most one
    holds the sentinel. *)
Lemma disabled_at_most_once raw :
  Forall (fun p => isDirectiveNameInvalid p.1 = false /\ valueAccepted p) raw ->
  NoDup (dashify <$> (raw.*1)) ->
  length (filter (fun p => isDisabled p = true) raw) <= 1.
Proof.
  induction 1 as [|p raw [_ Hp] Hall IH]; intros Hdup; [simpl; lia |].
  rewrite !fmap_cons in Hdup. apply NoDup_cons in Hdup as [Hhead Hdup].
  rewrite filter_cons. case_decide as Hdis; [| by apply IH].
  destruct (filter (fun p => isDisabled p = true) raw) as [|p' l] eqn:Hrest;
    [simpl; lia |].
  exfalso. assert (p' ∈ filter (fun p => isDisabled p = true) raw) as Hin.
  { rewrite Hrest. left. }
  apply list_elem_of_filter in Hin as [Hdis' Hin].
  pose proof (accepted_entry p Hp) as Hname. rewrite Hdis in Hname.
  rewrite Forall_forall in Hall. destruct (Hall p' Hin) as [_ Hp'].
  pose proof (accepted_entry p' Hp') as Hname'. rewrite Hdis' in Hname'.
  apply Hhead. rewrite (proj2 Hname), <- (proj2 Hname').
  by apply list_elem_of_fmap_2, list_elem_of_fmap_2.
Qed.

(** X5: normalization fails with the no-directives error in exactly two
    cases: the configuration has no property at all, or its only property
    is the sentinel on a key whose canonical name is default-src. *)
Theorem no_directives_iff raw :
  normalize (withDirectives raw) = Throw NoDirectives <->
  raw = []
  \/ exists k, raw = [(k, dangerouslyDisableDefaultSrc)]
               /\ isDirectiveNameInvalid k = false
               /\ dashify k = "default-src".
Proof.
  split.
  - unfold normalizeDirectives. simpl.
    destruct (normalizeLoop raw [] ∅) as [[r seen] | e] eqn:Hrun.
    2:{ intros [= ->]. by destruct (normalizeLoop_Throw _ _ _ _ Hrun). }
    destruct (normalizeLoop_Ok _ _ _ _ _ Hrun) as (-> & _ & Hdup & Hall).
    simpl. destruct (omap entryOf raw) as [|d nd] eqn:Hnone; simpl.
    2:{ by case_decide. }
    intros _. destruct raw as [|[k v] rest]; [by left | right].
    apply Forall_cons in Hall as [(Hk & _ & Hv) Hall].
    rewrite omap_entryOf_cons in Hnone.
    pose proof (accepted_entry _ Hv) as Hentry.
    destruct (isDisabled (k, v)) eqn:Hdis.
    2:{ destruct Hentry as [d Hd]. by rewrite Hd in Hnone. }
    destruct v; try done. destruct Hentry as [_ Hname].
    exists k. split_and!; [| done | done]. f_equal.
    destruct rest as [|[k' v'] rest]; [done | exfalso].
    apply Forall_cons in Hall as [(_ & _ & Hv') _].
    rewrite (proj1 (accepted_entry _ Hv)), omap_entryOf_cons in Hnone.
    pose proof (accepted_entry _ Hv') as Hentry'.
    destruct (isDisabled (k', v')) eqn:Hdis'.
    2:{ destruct Hentry' as [d Hd]. by rewrite Hd in Hnone. }
    destruct Hentry' as [_ Hname'].
    rewrite !fmap_cons in Hdup. apply NoDup_cons in Hdup as [Hhead _].
    apply Hhead. simpl in *. rewrite Hname, <- Hname'. left.
  - intros [-> | (k & -> & Hk & Hname)]; [done |].
    unfold normalizeDirectives. simpl. rewrite Hk.
    case_decide as Hin; [set_solver |]. by case_decide.
Qed.

(** X6: a configuration that normalizes loses at most one property on the
    way, the one that disables default-src: the result has one entry for
    every other property. *)
Theorem normalization_drops_only_the_sentinel raw nd :
  normalize (withDirectives raw) = Ok nd ->
  length raw = length nd + length (filter (fun p => isDisabled p = true) raw)
  /\ length (filter (fun p => isDisabled p = true) raw) <= 1
  /\ Forall (fun p => isDisabled p = true -> dashify p.1 = "default-src") raw.
Proof.
  intros Hnd.
  destruct (normalizeDirectives_Ok _ _ Hnd) as (-> & _ & Hdup & _ & Hall).
  split_and!; [| by apply disabled_at_most_once |].
  - clear Hdup Hnd. induction Hall as [|p raw [_ Hp] _ IH]; [done |].
    rewrite omap_entryOf_cons, filter_cons.
    pose proof (accepted_entry p Hp) as Hentry.
    destruct (isDisabled p) eqn:Hdis.
    + rewrite (proj1 Hentry). rewrite decide_True by done. simpl. lia.
    + destruct Hentry as [d ->]. rewrite decide_False by done. simpl. lia.
  - eapply Forall_impl; [exact Hall |]. intros p [_ Hp] Hdis.
    pose proof (accepted_entry p Hp) as Hentry. rewrite Hdis in Hentry.
    apply Hentry.
Qed.

(** Along the visiting order, the loop stops at the first property it
    rejects: the error stays whatever is visited after. *)
Theorem first_rejection_decides pre post e :
  normalize (withDirectives pre) = Throw e ->
  e <> NoDirectives ->
  e <> NeedsDefaultSrc ->
  normalize (withDirectives (pre ++ post)) = Throw e.
Proof.
  unfold normalizeDirectives. simpl. rewrite normalizeLoop_app.
  destruct (normalizeLoop pre [] ∅) as [[r seen] | e']; [| done].
  destruct (length r =? 0); [congruence |]. case_decide; congruence.
Qed.

(** X8: a property whose raw name is empty or has a character outside
    [[a-zA-Z0-9-]] makes normalization fail wherever it stands; when the
    properties before it are accepted, the error is the invalid-name error
    and carries the raw name as given, whatever the value is. *)
Theorem invalid_name_fails pre k v post :
  isDirectiveNameInvalid k = true ->
  let options := withDirectives (pre ++ (k, v) :: post) in
  (exists e, normalize options = Throw e)
  /\ (forall r1 seen1,
        normalizeLoop pre [] ∅ = Ok (r1, seen1) ->
        normalize options = Throw (InvalidDirectiveName k)).
Proof.
  intros Hk options. split.
  - destruct (normalize options) as [nd | e] eqn:Hrun; [| by eexists].
    destruct (normalizeDirectives_Ok _ _ Hrun) as (_ & _ & _ & _ & Hall).
    apply Forall_app in Hall as [_ Hall].
    apply Forall_cons in Hall as [[Hvalid _] _]. simpl in Hvalid. congruence.
  - intros r1 seen1 Hpre. unfold normalizeDirectives, options. simpl.
    rewrite normalizeLoop_app, Hpre. simpl. by rewrite Hk.
Qed.

(** X9: a falsy value other than the empty string, a string value with
    [;] or [,], and a list with a literal element with [;] or [,] make
    normalization fail wherever they stand; when the loop reaches the
    property, the error is the invalid-value error for the canonical
    name. *)
Theorem invalid_value_fails pre k v post :
  v = RawFalsy
  \/ (exists s, v = RawString s /\ isDirectiveValueInvalid s = true)
  \/ (exists l s, v = RawIterable l /\ Literal s ∈ l
                  /\ isDirectiveValueInvalid s = true) ->
  let options := withDirectives (pre ++ (k, v) :: post) in
  (exists e, normalize options = Throw e)
  /\ (forall r1 seen1,
        normalizeLoop pre [] ∅ = Ok (r1, seen1) ->
        isDirectiveNameInvalid k = false ->
        dashify k ∉ seen1 ->
        normalize options = Throw (InvalidDirectiveValue (dashify k))).
Proof.
  intros Hv options.
  assert (forall l s, Literal s ∈ l -> isDirectiveValueInvalid s = true ->
            existsb (isElementInvalid (IncomingMessage := IncomingMessage)
                       (ServerResponse := ServerResponse)) l = true) as Hex.
  { intros l s Hin Hs. apply existsb_exists. exists (Literal s).
    split; [by apply list_elem_of_In | done]. }
  split.
  - destruct (normalize options) as [nd | e] eqn:Hrun; [| by eexists].
    destruct (normalizeDirectives_Ok _ _ Hrun) as (_ & _ & _ & _ & Hall).
    apply Forall_app in Hall as [_ Hall].
    apply Forall_cons in Hall as [[_ Hacc] _].
    unfold valueAccepted in Hacc. simpl in Hacc.
    destruct Hv as [-> | [(s & -> & Hs) | (l & s & -> & Hin & Hs)]];
      [done | congruence |].
    rewrite (Hex _ _ Hin Hs) in Hacc. done.
  - intros r1 seen1 Hpre Hk Hfresh. unfold normalizeDirectives, options.
    simpl. rewrite normalizeLoop_app, Hpre.
    cbn [normalizeLoop]. rewrite Hk. case_decide; [done |].
    destruct Hv as [-> | [(s & -> & Hs) | (l & s & -> & Hin & Hs)]].
    + done.
    + simpl. by rewrite Hs.
    + by rewrite (Hex _ _ Hin Hs).
Qed.

End Rejection.

(** ** Producers at setup, and objects with a prototype *)

Section Setup.

Context {IncomingMessage ServerResponse : Type}.

Local Notation Element :=
  (@ContentSecurityPolicyDirectiveValue IncomingMessage ServerResponse).
Local Notation Raw := (@RawDirectiveValue IncomingMessage ServerResponse).
Local Notation Entry := (@NormalizedDirective IncomingMessage ServerResponse).
Local Notation normalize :=
  (@normalizeDirectives IncomingMessage ServerResponse).

Implicit Types (raw : list (string * Raw)) (r : list Entry).
Implicit Types (seen : gset string) (obj : @DirectivesObject IncomingMessage ServerResponse).
Implicit Types
  (phi : (IncomingMessage -> ServerResponse -> string) ->
         (IncomingMessage -> ServerResponse -> string)).

Lemma isElementInvalid_mapElement phi (l : list Element) :
  existsb isElementInvalid (mapElement phi <$> l) = existsb isElementInvalid l.
Proof.
  induction l as [|[s | f] l IH]; [done | |]; rewrite fmap_cons; simpl;
    by rewrite IH.
Qed.

Lemma normalizeLoop_mapRawDirectives phi raw r seen :
  normalizeLoop (mapRawDirectives phi raw) (mapEntry phi <$> r) seen =
  match normalizeLoop raw r seen with
  | Ok (r', seen') => Ok (mapEntry phi <$> r', seen')
  | Throw e => Throw e
  end.
Proof.
  revert r seen. induction raw as [|[k v] raw IH]; intros r seen; [done |].
  unfold mapRawDirectives. rewrite fmap_cons. fold (mapRawDirectives phi raw).
  cbn [normalizeLoop fst snd].
  destruct (isDirectiveNameInvalid k); [done |]. case_decide; [done |].
  destruct v as [s | | | l]; cbn [mapRawValue].
  - simpl. destruct (isDirectiveValueInvalid s || false); [done |].
    rewrite <- IH. by rewrite fmap_app.
  - done.
  - case_decide; [apply IH | done].
  - rewrite isElementInvalid_mapElement.
    destruct (existsb isElementInvalid l); [done |].
    rewrite <- IH. by rewrite fmap_app.
Qed.


Lemma lookupRaw_NoDup k v raw :
  NoDup (raw.*1) -> (k, v) ∈ raw -> lookupRaw k raw = Some v.
Proof.
  induction raw as [|[k' v'] raw IH]; [by intros _ ?%elem_of_nil |].
  rewrite fmap_cons. intros [Hhead Hdup]%NoDup_cons Hin. simpl.
  case_decide as Hk.
  - apply elem_of_cons in Hin as [[= _ ->] | Hin]; [done |].
    simpl in Hk. subst k'. exfalso. apply Hhead.
    by apply (list_elem_of_fmap_2 fst) in Hin.
  - apply elem_of_cons in Hin as [[= -> _] | Hin]; [done |]. by apply IH.
Qed.

(** The loop works on the own properties, each with its own value. *)
Lemma visitedProperties_own obj :
  NoDup ((ownProperties obj).*1) ->
  visitedProperties obj = ownProperties obj.
Proof.
  intros Hdup. unfold visitedProperties, forInKeys. rewrite omap_app.
  assert (omap (fun key => if has obj key
                           then Some (key, getProperty obj key) else None)
            (filter (fun k => k ∉ (ownProperties obj).*1)
               ((inheritedProperties obj).*1)) = []) as ->.
  { induction ((inheritedProperties obj).*1) as [|k ks IH]; [done |].
    rewrite filter_cons. case_decide as Hk; [| done].
    simpl. unfold has at 1. by rewrite bool_decide_eq_false_2. }
  rewrite app_nil_r.
  assert (forall l, l ⊆ ownProperties obj ->
            omap (fun key => if has obj key
                             then Some (key, getProperty obj key) else None)
              (l.*1) = l) as Hown; [| by apply Hown].
  induction l as [|[k v] l IH]; intros Hsub; [done |].
  rewrite fmap_cons. simpl. unfold has at 1.
  assert ((k, v) ∈ ownProperties obj) as Hin by (apply Hsub; left).
  rewrite bool_decide_eq_true_2
    by (by apply (list_elem_of_fmap_2 fst) in Hin).
  unfold getProperty at 1. rewrite (lookupRaw_NoDup _ _ _ Hdup Hin).
  simpl. f_equal. apply IH. intros p Hp. apply Hsub. by right.
Qed.


End Setup.

(** ** Outcomes of the renderer *)

Section Rendering.

Context {IncomingMessage ServerResponse : Type}.

Local Notation Element :=
  (@ContentSecurityPolicyDirectiveValue IncomingMessage ServerResponse).
Local Notation Entry := (@NormalizedDirective IncomingMessage ServerResponse).

Implicit Types (req : IncomingMessage) (res : ServerResponse).
Implicit Types (vs : list Element) (d : Entry) (nd : list Entry).
Implicit Types
  (options : @ContentSecurityPolicyOptions IncomingMessage ServerResponse).

(** Either every accumulated value passes the check, or there is a first
    entry whose accumulated value fails it. *)
Lemma first_invalid_directive req res nd :
  Forall (accumulatedValid req res) nd
  \/ exists nd1 d nd2,
       nd = nd1 ++ d :: nd2
       /\ Forall (accumulatedValid req res) nd1
       /\ isDirectiveValueInvalid (accumulate req res (directiveValue d) "")
          = true.
Proof.
  induction nd as [|d nd IH]; [by left |].
  destruct (isDirectiveValueInvalid (accumulate req res (directiveValue d) ""))
    eqn:Hd.
  { right. exists [], d, nd. by split_and!. }
  destruct IH as [Hall | (nd1 & d' & nd2 & -> & Hall & Hd')].
  - left. by constructor.
  - right. exists (d :: nd1), d', nd2. split_and!; [done | | done].
    by constructor.
Qed.

(** X12: the two outcomes of the renderer.  It returns a string exactly
    when the accumulated value of every directive passes the separator
    check, and the string is then the rendered directives joined by [;];
    it returns an error exactly when some accumulated value fails the
    check, and the error names the first such directive. *)
Theorem getHeaderValue_outcomes req res nd :
  (forall header,
     getHeaderValue req res nd = inl header <->
     Forall (accumulatedValid req res) nd
     /\ header = join ";" (renderDirective req res <$> nd))
  /\ (forall error,
        getHeaderValue req res nd = inr error <->
        exists nd1 d nd2,
          nd = nd1 ++ d :: nd2
          /\ Forall (accumulatedValid req res) nd1
          /\ isDirectiveValueInvalid
               (accumulate req res (directiveValue d) "") = true
          /\ error = InvalidDirectiveValue (directiveName d)).
Proof.
  unfold getHeaderValue. split.
  - intros header. split.
    + intros Hrun. pose proof (renderLoop_inl _ _ _ _ _ Hrun) as Hall.
      rewrite (renderLoop_valid _ _ _ _ Hall) in Hrun. split; [done |].
      by injection Hrun as <-.
    + intros [Hall ->]. by rewrite (renderLoop_valid _ _ _ _ Hall).
  - intros error. split.
    + intros Hrun.
      destruct (first_invalid_directive req res nd)
        as [Hall | (nd1 & d & nd2 & -> & Hall & Hd)].
      { by rewrite (renderLoop_valid _ _ _ _ Hall) in Hrun. }
      exists nd1, d, nd2. split_and!; [done | done | done |].
      rewrite renderLoop_invalid in Hrun; [congruence | done |].
      unfold accumulatedValid. congruence.
    + intros (nd1 & d & nd2 & -> & Hall & Hd & ->).
      apply renderLoop_invalid; [done |]. unfold accumulatedValid. congruence.
Qed.

(** The literal elements of a normalized policy pass the separator check. *)
Lemma normalized_literals_valid options nd :
  normalizeDirectives options = Ok nd ->
  Forall (fun d => existsb isElementInvalid (directiveValue d) = false) nd.
Proof.
  intros Hnd.
  destruct (normalizeDirectives_Ok_options _ _ Hnd) as (-> & _ & _ & _ & Hall).
  apply Forall_forall. intros d Hd.
  apply list_elem_of_omap in Hd as ([k v] & Hp & Hd).
  rewrite Forall_forall in Hall. destruct (Hall _ Hp) as [_ Hacc].
  unfold valueAccepted in Hacc. unfold entryOf in Hd. simpl in *.
  destruct v as [s | | | l]; simplify_eq; simpl; [| done].
  by rewrite Hacc.
Qed.

Lemma resolve_literal_list req res req' res' vs :
  forallb (fun element => match element with
                          | Literal _ => true
                          | Dynamic _ => false
                          end) vs = true ->
  resolveElement req res <$> vs = resolveElement req' res' <$> vs.
Proof.
  induction vs as [|[s | f] vs IH]; [done | | done].
  simpl. intros Hvs. f_equal. by apply IH.
Qed.

Lemma accumulate_resolved req res req' res' vs :
  resolveElement req res <$> vs = resolveElement req' res' <$> vs ->
  accumulate req res vs "" = accumulate req' res' vs "".
Proof. intros Heq. by rewrite !accumulate_spaced, Heq. Qed.

Lemma renderLoop_resolved req res req' res' nd result :
  Forall (fun d => resolveElement req res <$> directiveValue d
                   = resolveElement req' res' <$> directiveValue d) nd ->
  renderLoop req res nd result = renderLoop req' res' nd result.
Proof.
  intros Hall. revert result.
  induction Hall as [|d nd Hd _ IH]; intros result; [done |].
  cbn [renderLoop]. rewrite (accumulate_resolved _ _ _ _ _ Hd).
  destruct (accumulate req' res' (directiveValue d) "") as [|c acc].
  - cbn [isEmptyString]. apply IH.
  - cbn [isEmptyString].
    destruct (isDirectiveValueInvalid (String c acc)); [done | apply IH].
Qed.

(** X14: once a configuration is normalized, rendering can fail only
    through a dynamic value producer: it returns an error exactly when some
    producer of some directive returns a string with [;] or [,] for the
    request.  A policy without producers therefore never fails and has the
    same header for every request. *)
Theorem render_fails_only_through_producers options nd req res :
  normalizeDirectives options = Ok nd ->
  ((exists error, getHeaderValue req res nd = inr error) <->
   exists d f, d ∈ nd /\ Dynamic f ∈ directiveValue d
               /\ isDirectiveValueInvalid (f req res) = true)
  /\ (forallb isStatic nd = true ->
      exists header,
        forall req' res', getHeaderValue req' res' nd = inl header).
Proof.
  intros Hnd. pose proof (normalized_literals_valid _ _ Hnd) as Hlit.
  rewrite Forall_forall in Hlit. split_and!.
  - split.
    + intros [error Hrun].
      destruct (first_invalid_directive req res nd)
        as [Hall | (nd1 & d & nd2 & -> & _ & Hd)].
      { unfold getHeaderValue in Hrun.
        by rewrite (renderLoop_valid _ _ _ _ Hall) in Hrun. }
      rewrite accumulate_invalid in Hd.
      apply existsb_exists in Hd as (element & Hin & Hinv).
      apply list_elem_of_In in Hin.
      assert (d ∈ nd1 ++ d :: nd2) as Hd by set_solver.
      destruct element as [s | f].
      * exfalso. specialize (Hlit d Hd).
        assert (existsb isElementInvalid (directiveValue d) = true) as Hex;
          [| congruence].
        apply existsb_exists. exists (Literal s).
        split; [by apply list_elem_of_In | done].
      * by exists d, f.
    + intros (d & f & Hd & Hf & Hinv).
      destruct (getHeaderValue req res nd) as [header | error] eqn:Hrun;
        [| by eexists].
      apply renderLoop_inl in Hrun. rewrite Forall_forall in Hrun.
      specialize (Hrun d Hd). unfold accumulatedValid in Hrun.
      rewrite accumulate_invalid in Hrun.
      assert (existsb
                (fun element =>
                   isDirectiveValueInvalid (resolveElement req res element))
                (directiveValue d) = true) as Hex; [| congruence].
      apply existsb_exists. exists (Dynamic f).
      split; [by apply list_elem_of_In | done].
  - intros Hstatic. rewrite forallb_forall in Hstatic.
    exists (join ";" (renderDirective req res <$> nd)). intros req' res'.
    assert (Forall (fun d => resolveElement req' res' <$> directiveValue d
                             = resolveElement req res <$> directiveValue d) nd)
      as Hsame.
    { apply Forall_forall. intros d Hd. apply resolve_literal_list.
      apply Hstatic. by apply list_elem_of_In. }
    unfold getHeaderValue. rewrite (renderLoop_resolved _ _ _ _ _ [] Hsame).
    rewrite renderLoop_valid; [done |]. apply Forall_forall. intros d Hd.
    unfold accumulatedValid. rewrite accumulate_invalid.
    rewrite <- (Hlit d Hd). specialize (Hstatic d).
    assert (isStatic d = true) as Hs by (apply Hstatic; by apply list_elem_of_In).
    unfold isStatic in Hs. clear -Hs.
    induction (directiveValue d) as [|[s | f] vs IH]; [done | | done].
    simpl in *. by rewrite IH.
Qed.

End Rendering.

(** ** The header name, and reading the header back *)

Section Header.

Context {IncomingMessage ServerResponse : Type}.

Local Notation Entry := (@NormalizedDirective IncomingMessage ServerResponse).
Local Notation Options :=
  (@ContentSecurityPolicyOptions IncomingMessage ServerResponse).

Implicit Types (req : IncomingMessage) (res : ServerResponse).
Implicit Types (d : Entry) (nd : list Entry) (options : Options).

(** X15: the [reportOnly] flag selects the header name and nothing else:
    the name is the report-only one exactly when the flag is [true];
    setup fails with the same error whatever the flag is, and for every
    request the two middlewares set the same header values and call the
    continuation with the same arguments. *)
Theorem reportOnly_selects_the_name_only ds b1 b2 req res :
  selectHeaderName ({| directives := ds; reportOnly := b1 |} : Options)
  = (if decide (b1 = Some true)
     then "Content-Security-Policy-Report-Only"
     else "Content-Security-Policy")
  /\ match contentSecurityPolicy
           ({| directives := ds; reportOnly := b1 |} : Options),
         contentSecurityPolicy
           ({| directives := ds; reportOnly := b2 |} : Options) with
     | Ok middleware1, Ok middleware2 =>
         (headersSet (middleware1 req res)).*2
         = (headersSet (middleware2 req res)).*2
         /\ nextCalls (middleware1 req res) = nextCalls (middleware2 req res)
         /\ Forall (fun h => h.1 = selectHeaderName
                               ({| directives := ds; reportOnly := b1 |} : Options))
              (headersSet (middleware1 req res))
     | Throw e1, Throw e2 => e1 = e2
     | _, _ => False
     end.
Proof.
  split.
  - unfold selectHeaderName. simpl. destruct b1 as [[] |]; by case_decide.
  - unfold contentSecurityPolicy, normalizeDirectives. simpl.
    destruct (normalizeLoop _ [] ∅) as [[r seen] | e]; [| done].
    destruct (length r =? 0); [done |]. case_decide; [| done].
    unfold contentSecurityPolicyMiddleware.
    destruct (getHeaderValue req res r); simpl; split_and!; try done.
    by repeat constructor.
Qed.

Lemma testChar_weaken (cls1 cls2 : ascii -> bool) (s : string) :
  (forall c, cls1 c = true -> cls2 c = true) ->
  testChar cls2 s = false -> testChar cls1 s = false.
Proof.
  intros Himpl. induction s as [|c s IH]; [done |]. simpl.
  intros [Hc Hs]%orb_false_elim. rewrite (IH Hs), orb_false_r.
  destruct (cls1 c) eqn:H1; [| done]. by rewrite (Himpl c H1) in Hc.
Qed.

Lemma splitOn_nonempty sep (s : string) : splitOn sep s <> [].
Proof.
  destruct s as [|c s]; [done |]. simpl.
  destruct (c =? sep)%char; [done |]. by destruct (splitOn sep s).
Qed.

(** A string without the separator is one piece. *)
Lemma splitOn_one_piece sep (s : string) :
  testChar (fun c => (c =? sep)%char) s = false -> splitOn sep s = [s].
Proof.
  induction s as [|c s IH]; [done |]. simpl.
  intros [-> Hs]%orb_false_elim. by rewrite (IH Hs).
Qed.

(** The first piece ends at the first separator. *)
Lemma splitOn_first_piece sep (piece s : string) :
  testChar (fun c => (c =? sep)%char) piece = false ->
  splitOn sep (piece +:+ String sep s) = piece :: splitOn sep s.
Proof.
  induction piece as [|c piece IH].
  - intros _. rewrite append_nil. simpl. by rewrite Ascii.eqb_refl.
  - cbn [testChar]. intros [Hc Hpiece]%orb_false_elim.
    rewrite append_cons. cbn [splitOn]. by rewrite Hc, (IH Hpiece).
Qed.

Lemma splitOn_join sep (parts : list string) :
  parts <> [] ->
  Forall (fun part => testChar (fun c => (c =? sep)%char) part = false) parts ->
  splitOn sep (join (String sep "") parts) = parts.
Proof.
  intros Hne Hall. unfold join.
  induction Hall as [|part parts Hpart Hall IH]; [done |].
  destruct parts as [|part' parts]; [by apply splitOn_one_piece |].
  change (String.concat (String sep "") (part :: part' :: parts))
    with (part +:+ String sep "" +:+ String.concat (String sep "") (part' :: parts)).
  rewrite append_cons, append_nil, splitOn_first_piece by done.
  by rewrite IH.
Qed.

(** The accumulated value is empty or begins with a space. *)
Lemma spaced_shape (strs : list string) :
  spaced strs = "" \/ exists rest, spaced strs = String " " rest.
Proof.
  destruct strs as [|s strs]; [by left | right].
  exists (s +:+ spaced strs). simpl. by rewrite append_cons, append_nil.
Qed.

(** X16: the header reads back as the policy.  When a normalized policy
    renders to a header, splitting the header at every [;] gives the
    rendered directives, one piece per directive and in order, and the
    part of each piece before its first space is the directive's name. *)
Theorem header_splits_back_into_directives options nd req res header :
  normalizeDirectives options = Ok nd ->
  getHeaderValue req res nd = inl header ->
  splitOn ";" header = renderDirective req res <$> nd
  /\ (fun piece => head (splitOn " " piece)) <$> splitOn ";" header
     = (fun d => Some (directiveName d)) <$> nd.
Proof.
  intros Hnd Hrun. unfold getHeaderValue in Hrun.
  pose proof (renderLoop_inl _ _ _ _ _ Hrun) as Hvalid.
  rewrite (renderLoop_valid _ _ _ _ Hvalid), app_nil_l in Hrun.
  injection Hrun as <-.
  destruct (normalizeDirectives_Ok_options _ _ Hnd)
    as (Heq & Hne & _ & _ & Hall).
  pose proof (normalized_names_valid _ _ Hnd) as Hnames.
  assert (splitOn ";" (join ";" (renderDirective req res <$> nd))
          = renderDirective req res <$> nd) as Hsplit.
  { apply (splitOn_join ";").
    - destruct nd; [done | by rewrite fmap_cons].
    - apply Forall_fmap. rewrite Forall_forall in Hvalid, Hnames.
      apply Forall_forall. intros d Hd. simpl.
      unfold renderDirective. rewrite testChar_app.
      apply orb_false_intro.
      + eapply (testChar_weaken _ isSeparator); [| by apply Hnames].
        intros c Hc. unfold isSeparator. by rewrite Hc.
      + eapply (testChar_weaken _ isSeparator); [| by apply Hvalid].
        intros c Hc. unfold isSeparator. by rewrite Hc. }
  split; [done |]. rewrite Hsplit, <- list_fmap_compose.
  apply Forall_fmap_ext. apply Forall_forall. intros d Hd. simpl.
  assert (testChar (fun c => (c =? " ")%char) (directiveName d) = false)
    as Hspace.
  { subst nd. apply list_elem_of_omap in Hd as (p & Hp & Hd).
    rewrite (entryOf_name _ _ Hd). rewrite Forall_forall in Hall.
    destruct (Hall p Hp) as [Hvalidname _].
    apply valid_name_chars in Hvalidname.
    clear -Hvalidname. induction (p.1) as [|c k IH]; [done |].
    simpl in Hvalidname. apply orb_false_elim in Hvalidname as [Hc Hk].
    apply negb_false_iff in Hc. simpl.
    destruct (isUpper c) eqn:Hu; simpl; rewrite (IH Hk), orb_false_r.
    - by apply isCanonicalChar_not_space, toLowerCase_canonical.
    - by apply isCanonicalChar_not_space, isNameChar_canonical. }
  rewrite renderDirective_spaced.
  destruct (spaced_shape (resolveElement req res <$> directiveValue d))
    as [-> | [rest ->]].
  - by rewrite append_empty_r, splitOn_one_piece.
  - by rewrite splitOn_first_piece.
Qed.

End Header.

(** ** Instances of the further properties *)

Lemma normalized_names_canonical_witness :
  normalizeDirectives Examples.nonceOptions = Ok Examples.nonceNormalized
  /\ NoDup (directiveName <$> Examples.nonceNormalized).
Proof.
  assert (normalizeDirectives Examples.nonceOptions = Ok Examples.nonceNormalized)
    as Hnd by (vm_compute; reflexivity).
  split; [exact Hnd |].
  exact (proj1 (normalized_names_canonical _ _ Hnd)).
Defined.

Lemma normalization_drops_only_the_sentinel_witness :
  normalizeDirectives Examples.disabledOptions
  = Ok [ {| directiveName := "object-src";
            directiveValue := [Examples.none] |} ]
  /\ 2 = 1 + length (filter (fun p => isDisabled p = true)
                       [ ("defaultSrc",
                          @dangerouslyDisableDefaultSrc Examples.Req Examples.Res);
                         ("objectSrc", RawIterable [Examples.none]) ]).
Proof.
  assert (normalizeDirectives Examples.disabledOptions
          = Ok [ {| directiveName := "object-src";
                    directiveValue := [Examples.none] |} ]) as Hnd
    by (vm_compute; reflexivity).
  split; [exact Hnd |].
  exact (proj1 (normalization_drops_only_the_sentinel _ _ Hnd)).
Defined.

Lemma invalid_name_fails_witness :
  isDirectiveNameInvalid "script_src" = true
  /\ normalizeDirectives
       (withDirectives [("defaultSrc", RawIterable [Examples.self]);
                        ("script_src", RawIterable [Examples.self])])
     = Throw (InvalidDirectiveName "script_src").
Proof.
  split; [reflexivity |].
  exact (proj2 (invalid_name_fails
                  [("defaultSrc", RawIterable [Examples.self])]
                  "script_src" (RawIterable [Examples.self]) [] eq_refl)
           _ _ eq_refl).
Defined.

Lemma invalid_value_fails_witness :
  isDirectiveValueInvalid "a.example; b.example" = true
  /\ normalizeDirectives
       (withDirectives
          [("defaultSrc", RawIterable [Examples.self]);
           ("scriptSrc",
            RawIterable [Examples.self; Literal "a.example; b.example"])])
     = Throw (InvalidDirectiveValue "script-src").
Proof.
  split; [reflexivity |].
  refine (proj2 (invalid_value_fails
                   [("defaultSrc", RawIterable [Examples.self])]
                   "scriptSrc"
                   (RawIterable [Examples.self; Literal "a.example; b.example"])
                   [] _) _ _ eq_refl eq_refl _).
  - right. right. eexists _, "a.example; b.example".
    split; [reflexivity |]. split; [| reflexivity]. right. left.
  - vm_compute. intros H. discriminate H.
Defined.


Lemma render_fails_only_through_producers_witness :
  normalizeDirectives Examples.nonceOptions = Ok Examples.nonceNormalized
  /\ exists error,
       getHeaderValue () "a;b" Examples.nonceNormalized = inr error.
Proof.
  assert (normalizeDirectives Examples.nonceOptions = Ok Examples.nonceNormalized)
    as Hnd by (vm_compute; reflexivity).
  split; [exact Hnd |].
  apply (proj1 (render_fails_only_through_producers _ _ () "a;b" Hnd)).
  exists {| directiveName := "script-src";
            directiveValue := [Examples.self; Examples.nonce] |},
    (fun _ res => "'nonce-" +:+ res +:+ "'").
  split; [right; left |]. split; [right; left | reflexivity].
Defined.

Lemma header_splits_back_into_directives_witness :
  normalizeDirectives Examples.nonceOptions = Ok Examples.nonceNormalized
  /\ getHeaderValue () "abc" Examples.nonceNormalized
     = inl "default-src 'self';script-src 'self' 'nonce-abc'"
  /\ (fun piece => head (splitOn " " piece))
       <$> splitOn ";" "default-src 'self';script-src 'self' 'nonce-abc'"
     = (fun d => Some (directiveName d)) <$> Examples.nonceNormalized.
Proof.
  assert (normalizeDirectives Examples.nonceOptions = Ok Examples.nonceNormalized)
    as Hnd by (vm_compute; reflexivity).
  assert (getHeaderValue () "abc" Examples.nonceNormalized
          = inl "default-src 'self';script-src 'self' 'nonce-abc'") as Hrun
    by (vm_compute; reflexivity).
  split; [exact Hnd |]. split; [exact Hrun |].
  exact (proj2 (header_splits_back_into_directives _ _ _ _ _ Hnd Hrun)).
Defined.

(** ** Normalizing again, and the header as a whole *)

Section Again.

Context {IncomingMessage ServerResponse : Type}.

Local Notation Raw := (@RawDirectiveValue IncomingMessage ServerResponse).
Local Notation Entry := (@NormalizedDirective IncomingMessage ServerResponse).
Local Notation normalize :=
  (@normalizeDirectives IncomingMessage ServerResponse).

Implicit Types (req : IncomingMessage) (res : ServerResponse).
Implicit Types (d : Entry) (nd : list Entry).
Implicit Types
  (options : @ContentSecurityPolicyOptions IncomingMessage ServerResponse).

(** A canonical name is a valid raw name that canonicalization leaves as
    it is. *)
Lemma canonical_name_is_valid (name : string) :
  name <> "" ->
  testChar (fun c => negb (isCanonicalChar c)) name = false ->
  isDirectiveNameInvalid name = false /\ dashify name = name.
Proof.
  intros Hne Hchars. split.
  - unfold isDirectiveNameInvalid. apply orb_false_intro.
    + by destruct name.
    + eapply testChar_weaken; [| exact Hchars].
      intros c Hc. apply negb_true_iff in Hc. apply negb_true_iff.
      destruct (isCanonicalChar c) eqn:Hcan; [| done].
      exfalso. revert Hc Hcan. clear. by_cases_on_ascii c.
  - apply dashify_no_upper_fixed.
    eapply testChar_weaken; [| exact Hchars].
    intros c Hc. apply negb_true_iff.
    destruct (isCanonicalChar c) eqn:Hcan; [| done].
    by rewrite (isCanonicalChar_not_upper c Hcan) in Hc.
Qed.

(** X17: normalizing is idempotent.  A normalized policy, given back as a
    configuration (canonical names, value lists), normalizes to itself,
    unless it has no default-src entry (the configuration had disabled
    it), in which case the needs-default-src error is raised. *)
Theorem normalizing_again options nd :
  normalizeDirectives options = Ok nd ->
  normalize (withDirectives (asDirectives nd)) =
  if decide ("default-src" ∈ directiveName <$> nd)
  then Ok nd
  else Throw NeedsDefaultSrc.
Proof.
  intros Hnd. pose proof (normalized_literals_valid _ _ Hnd) as Hlit.
  destruct (normalizeDirectives_Ok_options _ _ Hnd)
    as (Heq & Hne & Hdup & _ & Hall).
  assert (Forall (fun d => isDirectiveNameInvalid (directiveName d) = false
                           /\ dashify (directiveName d) = directiveName d) nd)
    as Hnames.
  { rewrite Heq. apply Forall_forall. intros d Hd.
    apply list_elem_of_omap in Hd as (p & Hp & Hd).
    rewrite (entryOf_name _ _ Hd). rewrite Forall_forall in Hall.
    destruct (Hall p Hp) as [Hvalid _].
    destruct (dashify_canonical _ Hvalid). by apply canonical_name_is_valid. }
  assert (NoDup (directiveName <$> nd)) as Hnodup.
  { rewrite Heq. eapply sublist_NoDup; [exact Hdup | apply entry_names_sublist]. }
  clear Heq Hdup Hall Hnd.
  assert (dashify <$> ((asDirectives nd).*1) = directiveName <$> nd) as Hkeys.
  { unfold asDirectives. rewrite <- !list_fmap_compose.
    apply Forall_fmap_ext. eapply Forall_impl; [exact Hnames |].
    by intros d [_ ?]. }
  assert (omap entryOf (asDirectives nd) = nd) as Hentries.
  { unfold asDirectives. clear -Hnames.
    induction Hnames as [|[name vs] nd [_ Hname] _ IH]; [done |].
    rewrite fmap_cons, omap_entryOf_cons. unfold entryOf at 1.
    cbn [fst snd directiveName directiveValue] in *. by rewrite Hname, IH. }
  unfold normalizeDirectives. simpl.
  rewrite normalizeLoop_accepts.
  - rewrite Hentries, Hkeys, app_nil_l.
    destruct nd as [|d nd]; [done |]. simpl.
    case_decide as Hin; case_decide as Hin'; try done; exfalso.
    + apply Hin'. set_solver.
    + apply Hin. set_solver.
  - unfold asDirectives. apply Forall_fmap. apply Forall_forall. intros d Hd.
    rewrite Forall_forall in Hnames, Hlit. split; [apply (Hnames d Hd) |].
    apply (Hlit d Hd).
  - by rewrite Hkeys.
  - set_solver.
Qed.

(** X18: the header of a normalized policy is never the empty string: it
    begins with the name of the first directive. *)
Theorem header_begins_with_first_name options nd req res header :
  normalizeDirectives options = Ok nd ->
  getHeaderValue req res nd = inl header ->
  header <> ""
  /\ exists d rest tail,
       nd = d :: rest /\ header = directiveName d +:+ tail.
Proof.
  intros Hnd Hrun. unfold getHeaderValue in Hrun.
  pose proof (renderLoop_inl _ _ _ _ _ Hrun) as Hvalid.
  rewrite (renderLoop_valid _ _ _ _ Hvalid), app_nil_l in Hrun.
  injection Hrun as <-.
  destruct (normalizeDirectives_Ok_options _ _ Hnd)
    as (Heq & Hne & _ & _ & Hall).
  destruct nd as [|d rest]; [done |].
  assert (directiveName d <> "") as Hname.
  { assert (d ∈ omap entryOf
                   (default getDefaultDirectives (directives options) : list _))
      as Hd by (rewrite <- Heq; left).
    apply list_elem_of_omap in Hd as (p & Hp & Hd).
    rewrite (entryOf_name _ _ Hd). rewrite Forall_forall in Hall.
    destruct (Hall p Hp) as [Hvalidname _].
    by destruct (dashify_canonical _ Hvalidname). }
  assert (exists tail,
            join ";" (renderDirective req res <$> d :: rest)
            = directiveName d +:+ tail) as [tail Htail].
  { rewrite fmap_cons. unfold join, renderDirective at 1.
    destruct (renderDirective req res <$> rest) as [|part parts].
    - by eexists.
    - eexists. simpl. by rewrite append_assoc. }
  split; [| by exists d, rest, tail].
  rewrite Htail. destruct (directiveName d); done.
Qed.

End Again.

Lemma normalizing_again_witness :
  normalizeDirectives Examples.nonceOptions = Ok Examples.nonceNormalized
  /\ normalizeDirectives (withDirectives (asDirectives Examples.nonceNormalized))
     = Ok Examples.nonceNormalized.
Proof.
  assert (normalizeDirectives Examples.nonceOptions = Ok Examples.nonceNormalized)
    as Hnd by (vm_compute; reflexivity).
  split; [exact Hnd |].
  exact (normalizing_again _ _ Hnd).
Defined.

Lemma header_begins_with_first_name_witness :
  normalizeDirectives Examples.nonceOptions = Ok Examples.nonceNormalized
  /\ getHeaderValue () "abc" Examples.nonceNormalized
     = inl "default-src 'self';script-src 'self' 'nonce-abc'"
  /\ "default-src 'self';script-src 'self' 'nonce-abc'" <> "".
Proof.
  assert (normalizeDirectives Examples.nonceOptions = Ok Examples.nonceNormalized)
    as Hnd by (vm_compute; reflexivity).
  assert (getHeaderValue () "abc" Examples.nonceNormalized
          = inl "default-src 'self';script-src 'self' 'nonce-abc'") as Hrun
    by (vm_compute; reflexivity).
  split; [exact Hnd |]. split; [exact Hrun |].
  exact (proj1 (header_begins_with_first_name _ _ _ _ _ Hnd Hrun)).
Defined.

(** ** The order of the visit *)

(** Array indices among the keys the name check accepts. *)
Example isArrayIndex_examples :
  isArrayIndex "1" = true /\ isArrayIndex "0" = true
  /\ isArrayIndex "42" = true /\ isArrayIndex "4294967294" = true
  /\ isArrayIndex "4294967295" = false /\ isArrayIndex "01" = false
  /\ isArrayIndex "-1" = false /\ isArrayIndex "1a" = false
  /\ isArrayIndex "defaultSrc" = false /\ isArrayIndex "" = false.
Proof. by vm_compute. Qed.

Section VisitingOrder.

Context {IncomingMessage ServerResponse : Type}.

Local Notation Raw := (@RawDirectiveValue IncomingMessage ServerResponse).
Local Notation Entry := (@NormalizedDirective IncomingMessage ServerResponse).
Local Notation normalize :=
  (@normalizeDirectives IncomingMessage ServerResponse).

Implicit Types (req : IncomingMessage) (res : ServerResponse).
Implicit Types (created added : list (string * Raw)) (nd : list Entry).

Lemma filter_no_index {V : Type} (props : list (string * V)) :
  Forall (fun p => isArrayIndex p.1 = false) props ->
  filter (fun p => isArrayIndex p.1 = true) props = []
  /\ filter (fun p => isArrayIndex p.1 = false) props = props.
Proof.
  induction 1 as [|p props Hp _ [IH1 IH2]]; [done |].
  rewrite !filter_cons, IH1, IH2.
  rewrite decide_False by congruence. by rewrite decide_True.
Qed.

(** Without array-index keys, the visit follows the order of creation. *)
Lemma forInOrder_no_index {V : Type} (props : list (string * V)) :
  Forall (fun p => isArrayIndex p.1 = false) props ->
  forInOrder props = props.
Proof.
  intros Hall. unfold forInOrder.
  by destruct (filter_no_index props Hall) as [-> ->].
Qed.

(** Properties created last under keys that are not array indices are
    visited last. *)
Lemma forInOrder_app_no_index {V : Type} (props more : list (string * V)) :
  Forall (fun p => isArrayIndex p.1 = false) more ->
  forInOrder (props ++ more) = forInOrder props ++ more.
Proof.
  intros Hall. unfold forInOrder. rewrite !filter_app.
  destruct (filter_no_index more Hall) as [-> ->].
  by rewrite app_nil_r, app_assoc.
Qed.

(** C7, as the code has it: the header is the rendered directives joined by
    [;], one per property that contributes an entry, in the order in which
    [for ... in] visits the configuration; when no key of the
    configuration is an array index this is the order in which the
    configuration lists its properties.  A rendered directive is its name
    followed by each resolved value preceded by one space, and the bare
    name when it has no value; joining puts [;] between consecutive
    directives and nothing after the last.
    { defaultSrc: ['self'], blockAllMixedContent: [] } renders to
    "default-src 'self';block-all-mixed-content". *)
Theorem header_follows_the_visiting_order created nd req res :
  normalize (withDirectives (forInOrder created)) = Ok nd ->
  Forall (accumulatedValid req res) nd ->
  getHeaderValue req res nd =
    inl (join ";" (renderDirective req res <$> omap entryOf (forInOrder created)))
  /\ (Forall (fun p => isArrayIndex p.1 = false) created ->
      forInOrder created = created
      /\ getHeaderValue req res nd =
           inl (join ";" (renderDirective req res <$> omap entryOf created)))
  /\ (forall d : Entry, renderDirective req res d =
        directiveName d +:+ spaced (resolveElement req res <$> directiveValue d))
  /\ (forall d : Entry, directiveValue d = [] ->
        accumulate req res (directiveValue d) "" = ""
        /\ renderDirective req res d = directiveName d)
  /\ (forall part, join ";" [part] = part)
  /\ (forall part part' parts,
        join ";" (part :: part' :: parts) =
        part +:+ ";" +:+ join ";" (part' :: parts))
  /\ renderOptions
       (withDirectives
          (forInOrder [("defaultSrc", RawIterable [Literal "'self'"]);
                       ("blockAllMixedContent", RawIterable [])])) req res
     = Ok (inl "default-src 'self';block-all-mixed-content").
Proof.
  intros Hnd Hall.
  assert (getHeaderValue req res nd =
          inl (join ";" (renderDirective req res
                           <$> omap entryOf (forInOrder created)))) as Hheader.
  { destruct (normalizeDirectives_Ok _ _ Hnd) as (<- & _).
    unfold getHeaderValue. by rewrite (renderLoop_valid _ _ _ _ Hall). }
  split_and!; try done.
  - intros Hnone. rewrite (forInOrder_no_index _ Hnone) in Hheader. split; [| done].
    by apply forInOrder_no_index.
  - apply renderDirective_spaced.
  - intros d Hd. unfold renderDirective. rewrite Hd. simpl.
    by rewrite append_empty_r.
Qed.

(** X7: the normalizer stops at the first property it rejects, in the
    order of the visit: once a configuration fails with an error about one
    of its properties, the same error is raised when properties are added
    to it under keys that are not array indices, which [for ... in] visits
    after the others.  A property added under an array-index key is
    visited first and can change the error: { "default src": ['self'] }
    fails with the invalid-name error, and with "1": null added it fails
    with the invalid-value error for "1". *)
Theorem first_rejection_decides_in_visiting_order created added e :
  normalize (withDirectives (forInOrder created)) = Throw e ->
  e <> NoDirectives ->
  e <> NeedsDefaultSrc ->
  Forall (fun p => isArrayIndex p.1 = false) added ->
  normalize (withDirectives (forInOrder (created ++ added))) = Throw e
  /\ normalize
       (withDirectives
          (forInOrder [("default src", RawIterable [Literal "'self'"])]))
     = Throw (InvalidDirectiveName "default src")
  /\ normalize
       (withDirectives
          (forInOrder [("default src", RawIterable [Literal "'self'"]);
                       ("1", RawFalsy)]))
     = Throw (InvalidDirectiveValue "1").
Proof.
  intros Hrun Hno Hneeds Hadded. split_and!; [| done | done].
  rewrite (forInOrder_app_no_index _ _ Hadded).
  by apply first_rejection_decides.
Qed.

End VisitingOrder.

(** The claim of C7 fails on a configuration with an array-index key: the
    property written last is visited and rendered first. *)
Lemma integer_like_key_is_rendered_first :
  forInOrder (@indexKeyDirectives Examples.Req Examples.Res)
  = [ ("1", RawIterable [Literal "x"]);
      ("defaultSrc", RawIterable [Literal "'self'"]) ]
  /\ renderOptions
       (withDirectives (forInOrder (@indexKeyDirectives Examples.Req Examples.Res)))
       () "abc"
     = Ok (inl "1 x;default-src 'self'")
  /\ join ";" (renderDirective () "abc"
                 <$> omap entryOf (@indexKeyDirectives Examples.Req Examples.Res))
     = "default-src 'self';1 x"
  /\ renderOptions
       (withDirectives (forInOrder (@indexKeyDirectives Examples.Req Examples.Res)))
       () "abc"
     <> Ok (inl (join ";"
                   (renderDirective () "abc"
                      <$> omap entryOf
                            (@indexKeyDirectives Examples.Req Examples.Res)))).
Proof.
  split_and!; [by vm_compute | by vm_compute | by vm_compute |].
  vm_compute. intros H. discriminate H.
Qed.

Lemma header_follows_the_visiting_order_witness :
  normalizeDirectives
    (withDirectives
       (forInOrder [("defaultSrc", RawIterable [Examples.self]);
                    ("blockAllMixedContent", RawIterable [])]))
  = Ok Examples.valenceNormalized
  /\ Forall (accumulatedValid () "abc") Examples.valenceNormalized
  /\ Forall (fun p : string * @RawDirectiveValue Examples.Req Examples.Res =>
               isArrayIndex p.1 = false)
       [("defaultSrc", RawIterable [Examples.self]);
        ("blockAllMixedContent", RawIterable [])]
  /\ getHeaderValue () "abc" Examples.valenceNormalized
     = inl "default-src 'self';block-all-mixed-content".
Proof.
  assert (normalizeDirectives
            (withDirectives
               (forInOrder [("defaultSrc", RawIterable [Examples.self]);
                            ("blockAllMixedContent", RawIterable [])]))
          = Ok Examples.valenceNormalized) as Hnd by (vm_compute; reflexivity).
  assert (Forall (accumulatedValid () "abc") Examples.valenceNormalized) as Hall
    by (repeat constructor).
  assert (Forall (fun p : string * @RawDirectiveValue Examples.Req Examples.Res =>
                    isArrayIndex p.1 = false)
            [("defaultSrc", RawIterable [Examples.self]);
             ("blockAllMixedContent", RawIterable [])]) as Hnone
    by (repeat constructor).
  split; [exact Hnd |]. split; [exact Hall |]. split; [exact Hnone |].
  exact (proj2 (proj1 (proj2 (header_follows_the_visiting_order _ _ _ _ Hnd Hall))
                  Hnone)).
Defined.

Lemma first_rejection_decides_in_visiting_order_witness :
  normalizeDirectives
    (withDirectives
       (forInOrder [("default src", RawIterable [Examples.self])]))
  = Throw (InvalidDirectiveName "default src")
  /\ Forall (fun p : string * @RawDirectiveValue Examples.Req Examples.Res =>
               isArrayIndex p.1 = false)
       [("defaultSrc", RawIterable [Examples.self])]
  /\ normalizeDirectives
       (withDirectives
          (forInOrder ([("default src", RawIterable [Examples.self])]
                       ++ [("defaultSrc", RawIterable [Examples.self])])))
     = Throw (InvalidDirectiveName "default src").
Proof.
  assert (normalizeDirectives
            (withDirectives
               (forInOrder [("default src", RawIterable [Examples.self])]))
          = Throw (InvalidDirectiveName "default src")) as Hpre
    by (vm_compute; reflexivity).
  assert (Forall (fun p : string * @RawDirectiveValue Examples.Req Examples.Res =>
                    isArrayIndex p.1 = false)
            [("defaultSrc", RawIterable [Examples.self])]) as Hadded
    by (repeat constructor).
  split; [exact Hpre |]. split; [exact Hadded |].
  exact (proj1 (first_rejection_decides_in_visiting_order
                  [("default src", RawIterable [Examples.self])]
                  [("defaultSrc", RawIterable [Examples.self])]
                  _ Hpre ltac:(discriminate) ltac:(discriminate) Hadded)).
Defined.
